(** * The span explorer pipeline

    A shallow embedding of [vue/src/use/span-explore.ts]: the composable
    [useSpanExplore] derives, from one query result, the filtered, sorted
    and paged item lists, the per-type counts, the column projections and
    the error projection, and keeps the pager's item count in step with
    the filtered list.

    The composable is written against the JavaScript runtime, lodash's
    [orderBy] and Vue's [computed]/[watch]; the parts of those it uses are
    modelled first, each beside the construct of the source it stands for. *)

From Stdlib Require Import ZArith QArith Qabs Ascii String Permutation Lia.
From stdpp Require Import base gmap strings list sorting.

(** ** JavaScript values *)

Module Js.

(** A number is an IEEE double. The pipeline never computes with the numbers
    of an item, it only compares them, so a finite number is kept as the
    rational it denotes. *)
Inductive Number :=
| NaN
| NegInf
| Fin (q : Q)
| PosInf.

(** The values a field of an item holds: the query result is JSON whose
    fields are strings and numbers; [Undefined] is what reading a missing
    field gives. *)
Inductive Value :=
| Undefined
| Null
| Num (n : Number)
| Str (s : string).

(** [!v] is [negb (truthy v)]. *)
Definition truthy (v : Value) : bool :=
  match v with
  | Undefined | Null => false
  | Num NaN => false
  | Num (Fin q) => negb (Qeq_bool q 0)
  | Num _ => true
  | Str s => negb (String.eqb s "")
  end.

(** [v ?? d] keeps everything but [undefined] and [null]. *)
Definition nullish (v : Value) : bool :=
  match v with
  | Undefined | Null => true
  | _ => false
  end.

(** [a < b] on numbers: false as soon as one side is [NaN]. *)
Definition num_lt (a b : Number) : bool :=
  match a, b with
  | NaN, _ | _, NaN => false
  | _, NegInf => false
  | NegInf, _ => true
  | PosInf, _ => false
  | _, PosInf => true
  | Fin p, Fin q => negb (Qle_bool q p)
  end.

(** [a === b] on numbers: [NaN] equals nothing, itself included. *)
Definition num_eq (a b : Number) : bool :=
  match a, b with
  | NegInf, NegInf | PosInf, PosInf => true
  | Fin p, Fin q => Qeq_bool p q
  | _, _ => false
  end.

(** [a < b] on strings compares code units from the left; a string is the
    list of its code units. *)
Fixpoint str_lt (a b : string) : bool :=
  match a, b with
  | _, EmptyString => false
  | EmptyString, String _ _ => true
  | String x a', String y b' =>
      if (Ascii.nat_of_ascii x <? Ascii.nat_of_ascii y)%nat then true
      else if (Ascii.nat_of_ascii y <? Ascii.nat_of_ascii x)%nat then false
      else str_lt a' b'
  end.

(** [l.indexOf(x)]: the first position holding [x], or [-1]. *)
Fixpoint indexOf_from (l : list string) (x : string) (i : Z) : Z :=
  match l with
  | [] => (-1)%Z
  | y :: l' => if String.eqb y x then i else indexOf_from l' x (i + 1)%Z
  end.

Definition indexOf (l : list string) (x : string) : Z := indexOf_from l x 0%Z.

(** [l.slice(start, end)]: a negative bound counts from the end of the
    array, and both bounds are brought into [0 .. l.length]. *)
Definition relative_index (len k : Z) : Z :=
  if (k <? 0)%Z then Z.max (len + k) 0 else Z.min k len.

Definition slice {A} (l : list A) (start end_ : Z) : list A :=
  let len := Z.of_nat (length l) in
  let k := relative_index len start in
  let final := relative_index len end_ in
  take (Z.to_nat (Z.max (final - k) 0)) (drop (Z.to_nat k) l).

(** [s.endsWith(t)]. *)
Definition endsWith (s t : string) : bool :=
  let n := String.length s in
  let m := String.length t in
  if (m <=? n)%nat then String.eqb (substring (n - m) m s) t else false.

(** What the language leaves to the engine: [Date.parse] falls back to
    formats of the engine's choosing and reads a time without offset in the
    local time zone; [StringToNumber] is the conversion [<] and [>] apply to
    a string that meets a non-string. [None] is an invalid date. *)
Class Engine := {
  Date_parse : string -> option Z;
  StringToNumber : string -> Number
}.

(** [TimeClip]: a time value is a whole number of milliseconds, at most
    8.64e15 away from the epoch. *)
Definition TimeClip (n : Number) : option Z :=
  match n with
  | Fin q =>
      if Qle_bool (Qabs q) (inject_Z 8640000000000000)
      then Some (Z.quot (Qnum q) (Zpos (Qden q)))
      else None
  | _ => None
  end.

(** [new Date(v)], as its time value ([None]: the Invalid Date). *)
Definition new_Date `{Engine} (v : Value) : option Z :=
  match v with
  | Undefined => None
  | Null => Some 0%Z
  | Num n => TimeClip n
  | Str s => Date_parse s
  end.

(** What a sort iteratee of the pipeline returns: a field as it is, or a
    fresh [Date] object. *)
Inductive Criterion :=
| CValue (v : Value)
| CDate (t : option Z).

(** [ToNumber] after [ToPrimitive]: a [Date] gives its time value. *)
Definition ToNumber `{Engine} (c : Criterion) : Number :=
  match c with
  | CValue Undefined => NaN
  | CValue Null => Fin 0
  | CValue (Num n) => n
  | CValue (Str s) => StringToNumber s
  | CDate None => NaN
  | CDate (Some t) => Fin (inject_Z t)
  end.

(** [a < b]: two strings compare as strings, everything else as numbers. *)
Definition lt `{Engine} (a b : Criterion) : bool :=
  match a, b with
  | CValue (Str s), CValue (Str t) => str_lt s t
  | _, _ => num_lt (ToNumber a) (ToNumber b)
  end.

Definition gt `{Engine} (a b : Criterion) : bool := lt b a.

(** [a !== b]. Every [Date] is an object of its own (the iteratee builds one
    per item, and a sort compares two different entries), so a [Date]
    differs from everything. *)
Definition strict_ne (a b : Criterion) : bool :=
  match a, b with
  | CValue Undefined, CValue Undefined => false
  | CValue Null, CValue Null => false
  | CValue (Num m), CValue (Num n) => negb (num_eq m n)
  | CValue (Str s), CValue (Str t) => negb (String.eqb s t)
  | _, _ => true
  end.

(** [v === v]: false for [NaN] alone (an object is itself). *)
Definition reflexive (c : Criterion) : bool :=
  match c with
  | CValue (Num NaN) => false
  | _ => true
  end.

(** [Array.prototype.sort(comparefn)]. For a consistent [comparefn] the
    language fixes the result and every engine returns the same array; for
    any other it leaves the order to the engine. The model is the insertion
    sort: [x] goes in front of the first [y] with [comparefn x y <= 0]. *)
Fixpoint sort_insert {A} (comparefn : A -> A -> Z) (x : A) (sorted : list A)
  : list A :=
  match sorted with
  | [] => [x]
  | y :: rest =>
      if (comparefn x y <=? 0)%Z then x :: y :: rest
      else y :: sort_insert comparefn x rest
  end.

Fixpoint Array_sort {A} (comparefn : A -> A -> Z) (l : list A) : list A :=
  match l with
  | [] => []
  | x :: l' => sort_insert comparefn x (Array_sort comparefn l')
  end.

(** A value that may be an object: what the fetcher reports as its error. *)
#[local] Unset Elimination Schemes.
Inductive Any :=
| Prim (v : Value)
| Obj (props : list (string * Any)).
#[local] Set Elimination Schemes.

Definition any_nullish (a : Any) : bool :=
  match a with
  | Prim v => nullish v
  | Obj _ => false
  end.

Fixpoint assoc {V} (k : string) (props : list (string * V)) : option V :=
  match props with
  | [] => None
  | (k', v) :: rest => if String.eqb k' k then Some v else assoc k rest
  end.

(** [a?.k]: [undefined] when [a] is [undefined] or [null], the property
    otherwise. A string or a number has no property of the names read here
    ([response], [data], [message], [code], [query]). *)
Definition optional_get (a : Any) (k : string) : Any :=
  if any_nullish a then Prim Undefined
  else
    match a with
    | Obj props => default (Prim Undefined) (assoc k props)
    | Prim _ => Prim Undefined
    end.

(** [a ?? d]. *)
Definition coalesce (a d : Any) : Any := if any_nullish a then d else a.

(** A property name is an array index when it is the decimal writing, with
    no leading zero, of a number below [2^32 - 1]. *)
Definition digit (a : ascii) : option N :=
  let n := N_of_ascii a in
  if (48 <=? n)%N && (n <=? 57)%N then Some (n - 48)%N else None.

Fixpoint digits (s : string) (acc : N) : option N :=
  match s with
  | EmptyString => Some acc
  | String a s' =>
      match digit a with
      | Some d => digits s' (10 * acc + d)%N
      | None => None
      end
  end.

Definition array_index (s : string) : option N :=
  match s with
  | EmptyString => None
  | String a rest =>
      if Ascii.eqb a "0" && negb (String.eqb rest "") then None
      else
        match digits s 0%N with
        | Some n => if (n <? 4294967295)%N then Some n else None
        | None => None
        end
  end.

Fixpoint insert_by_index {V} (n : N) (kv : string * V)
    (l : list (N * (string * V))) : list (N * (string * V)) :=
  match l with
  | [] => [(n, kv)]
  | (m, kv') :: rest =>
      if (n <? m)%N then (n, kv) :: l else (m, kv') :: insert_by_index n kv rest
  end.

Fixpoint index_props {V} (props : list (string * V)) : list (N * (string * V)) :=
  match props with
  | [] => []
  | (k, v) :: rest =>
      match array_index k with
      | Some n => insert_by_index n (k, v) (index_props rest)
      | None => index_props rest
      end
  end.

(** [for (k in o)] over an object with the own properties [props], kept in
    the order they were created: array indices first, in ascending order,
    then the other names in creation order. *)
Definition for_in {V} (props : list (string * V)) : list (string * V) :=
  (snd <$> index_props props)
  ++ List.filter (fun kv => negb (bool_decide (is_Some (array_index kv.1)))) props.

End Js.

(** An item is an open record, [Record<string, any>]; [item[key]] reads a
    field and gives [undefined] when the item has none of that name. *)
Abbreviation ExploreItem := (gmap string Js.Value).

Definition field (item : ExploreItem) (key : string) : Js.Value :=
  default Js.Undefined (item !! key).

(** ** What the composable imports *)

(** The module [@/models/otelattr] gives the well-known field names ([xkey])
    and [splitTypeSystem]. The pipeline uses them as they come, so they are
    parameters of the development. [splitTypeSystem] receives whatever the
    item holds under the system key, once that is truthy. *)
Class Otelattr := {
  xkey_spanSystem : string;
  xkey_spanTime : string;
  xkey_spanCountPerMin : string;
  splitTypeSystem : Js.Value -> string * string
}.

(** ** The filter step *)

Section Filter.
Context `{Otelattr}.

(** The callback of [items.value.filter(...)] in [filteredItems]. *)
Definition keepItem (typeFilter : list string) (item : ExploreItem) : bool :=
  let system := field item xkey_spanSystem in
  if negb (Js.truthy system) then true
  else
    let '(typ, _) := splitTypeSystem system in
    (0 <=? Js.indexOf typeFilter typ)%Z.

Definition filteredItems (items : list ExploreItem) (typeFilter : list string)
  : list ExploreItem :=
  if (length typeFilter =? 0)%nat then items
  else List.filter (keepItem typeFilter) items.

End Filter.

(** ** lodash's [orderBy] *)

Module Lodash.
Import Js.

Section WithEngine.
Context `{Engine}.

(** [compareAscending(value, other)] of lodash. No field of an item is a
    symbol, so the [isSymbol] tests (all false) are left out. *)
Definition compareAscending (value other : Criterion) : Z :=
  if strict_ne value other then
    let valIsDefined := strict_ne value (CValue Undefined) in
    let valIsNull := negb (strict_ne value (CValue Null)) in
    let valIsReflexive := reflexive value in
    let othIsDefined := strict_ne other (CValue Undefined) in
    let othIsNull := negb (strict_ne other (CValue Null)) in
    let othIsReflexive := reflexive other in
    if (negb othIsNull && gt value other)
       || (valIsNull && othIsDefined && othIsReflexive)
       || (negb valIsDefined && othIsReflexive)
       || negb valIsReflexive
    then 1%Z
    else if (negb valIsNull && lt value other)
       || (othIsNull && valIsDefined && valIsReflexive)
       || (negb othIsDefined && valIsReflexive)
       || negb othIsReflexive
    then (-1)%Z
    else 0%Z
  else 0%Z.

(** What [baseOrderBy] sorts: an element with its criteria and its position
    in the collection. *)
Record Entry (A : Type) := {
  criteria : list Criterion;
  index : Z;
  value : A
}.
#[global] Arguments criteria {A} _.
#[global] Arguments index {A} _.
#[global] Arguments value {A} _.

(** The loop of [compareMultiple]: the first criterion that tells the two
    entries apart decides, reversed when its order is ['desc']. *)
Fixpoint compareCriteria (objCriteria othCriteria : list Criterion)
    (orders : list string) : option Z :=
  match objCriteria, othCriteria with
  | c :: objCriteria', d :: othCriteria' =>
      let result := compareAscending c d in
      if (result =? 0)%Z then
        compareCriteria objCriteria' othCriteria' (tail orders)
      else
        match orders with
        | [] => Some result
        | order :: _ =>
            Some (result * (if String.eqb order "desc" then -1 else 1))%Z
        end
  | _, _ => None
  end.

(** [compareMultiple(object, other, orders)]: entries no criterion tells
    apart compare by position. *)
Definition compareMultiple {A} (orders : list string) (object other : Entry A)
  : Z :=
  match compareCriteria (criteria object) (criteria other) orders with
  | Some result => result
  | None => (index object - index other)%Z
  end.

(** [baseMap] inside [baseOrderBy]: the entries, numbered from [from]. *)
Fixpoint entries_from {A} (iteratees : list (A -> Criterion)) (from : Z)
    (collection : list A) : list (Entry A) :=
  match collection with
  | [] => []
  | v :: rest =>
      {| criteria := (fun iteratee => iteratee v) <$> iteratees;
         index := from;
         value := v |}
      :: entries_from iteratees (from + 1)%Z rest
  end.

(** The entries once sorted, before [baseSortBy] unwraps them. *)
Definition sortedEntries {A} (collection : list A)
    (iteratees : list (A -> Criterion)) (orders : list string)
  : list (Entry A) :=
  Array_sort (compareMultiple orders) (entries_from iteratees 0%Z collection).

Definition baseOrderBy {A} (collection : list A)
    (iteratees : list (A -> Criterion)) (orders : list string) : list A :=
  value <$> sortedEntries collection iteratees orders.

(** [orderBy(collection, iteratee, order)] with one iteratee and at most one
    order, the two ways the composable calls it. *)
Definition orderBy {A} (collection : list A) (iteratee : A -> Criterion)
    (order : option string) : list A :=
  baseOrderBy collection [iteratee]
    (match order with None => [] | Some o => [o] end).

End WithEngine.
End Lodash.

(** ** Order and pager *)

(** Modelled from the spec: [Order] of [@/use/order] is not part of the
    source under study. It holds the sort column, a string or [null], and
    the direction. *)
Record Order := {
  column : option string;
  desc : bool
}.

(** The offsets [pager.pos] hands to [slice]. *)
Record Pos := {
  start : Z;
  end_ : Z
}.

(** Modelled from the spec: the pager of [@/use/pager] is not part of the
    source under study. It holds the page (from 1), the page size and the
    item count, and derives [start = (page - 1) * perPage] and
    [end = start + perPage]; bringing the two into [0 .. numItem] is what
    [slice] does with them. A new pager stands on page 1 and counts no
    item. *)
Record Pager := {
  page : Z;
  perPage : Z;
  numItem : Z
}.



Definition pager_pos (p : Pager) : Pos :=
  let start := ((page p - 1) * perPage p)%Z in
  {| start := start; end_ := (start + perPage p)%Z |}.

(** [pager.numItem = n]. *)
Definition set_numItem (n : Z) (p : Pager) : Pager :=
  {| page := page p; perPage := perPage p; numItem := n |}.

(** ** The sort and page steps *)

Section Sort.
Context `{Otelattr} `{Js.Engine}.

Definition hasField (s field : string) : bool :=
  Js.endsWith s ("." ++ field) || Js.endsWith s ("_" ++ field).

Definition isDateField (s : string) : bool :=
  String.eqb s xkey_spanTime || hasField s "time" || hasField s "date".

(** The iteratee handed to [orderBy] in [sortedItems]. *)
Definition sortKey (column : string) (isDate : bool) (item : ExploreItem)
  : Js.Criterion :=
  let val := field item column in
  if isDate then Js.CDate (Js.new_Date val) else Js.CValue val.

(** [sortedItems]; [!order.column] holds of [null] and of the empty string. *)
Definition sortedItems (filteredItems : list ExploreItem) (order : Order)
  : list ExploreItem :=
  match column order with
  | None => filteredItems
  | Some c =>
      if String.eqb c "" then filteredItems
      else
        let isDate := isDateField c in
        Lodash.orderBy filteredItems (sortKey c isDate)
          (Some (if desc order then "desc" else "asc"))
  end.

Definition pageItems (sortedItems : list ExploreItem) (pos : Pos)
  : list ExploreItem :=
  Js.slice sortedItems (start pos) (end_ pos).

End Sort.

(** ** Type aggregation, columns and the error projection *)

Record TypeItem := {
  type : string;
  numGroup : Z
}.

Record ColumnInfo := {
  name : string;
  isNum : bool;
  isGroup : bool
}.

(** What the fetcher yields as [data]: each of the three fields may be
    missing. [QueryPart] comes from [@/use/uql] and is passed through. *)
Record QueryResult (QueryPart : Type) := {
  groups : option (list ExploreItem);
  result_columns : option (list ColumnInfo);
  result_queryParts : option (list QueryPart)
}.
Arguments groups {QueryPart} _.
Arguments result_columns {QueryPart} _.
Arguments result_queryParts {QueryPart} _.

Section Derived.
Context `{Otelattr} `{Js.Engine}.
Context {QueryPart : Type}.

(** [items]: [data.value?.groups ?? []]. *)
Definition items (data : option (QueryResult QueryPart)) : list ExploreItem :=
  default [] (data ≫= groups).

(** [queryParts]: [data.value?.queryParts], with no default. *)
Definition queryParts (data : option (QueryResult QueryPart))
  : option (list QueryPart) :=
  data ≫= result_queryParts.

(** [columns]: [data.value?.columns ?? []]. *)
Definition columns (data : option (QueryResult QueryPart)) : list ColumnInfo :=
  default [] (data ≫= result_columns).

Definition groupColumns (columns : list ColumnInfo) : list ColumnInfo :=
  List.filter isGroup columns.

Definition plotColumns (columns : list ColumnInfo) : list ColumnInfo :=
  List.filter isNum columns.

(** [typeItem.numGroup++] on the entry of [typeMap] stored under [type]. *)
Fixpoint increment (typ : string) (typeMap : list (string * TypeItem))
  : list (string * TypeItem) :=
  match typeMap with
  | [] => []
  | (k, typeItem) :: rest =>
      if String.eqb k typ
      then (k, {| type := type typeItem;
                  numGroup := (numGroup typeItem + 1)%Z |}) :: rest
      else (k, typeItem) :: increment typ rest
  end.

(** One turn of the loop over [items.value] in [types]. [typeMap] is the
    object the loop fills, as its own properties in creation order; the
    labels are taken not to name a member of [Object.prototype]. *)
Definition countType (typeMap : list (string * TypeItem)) (item : ExploreItem)
  : list (string * TypeItem) :=
  let system := field item xkey_spanSystem in
  if negb (Js.truthy system) then typeMap
  else
    let '(typ, _) := splitTypeSystem system in
    match Js.assoc typ typeMap with
    | Some _ => increment typ typeMap
    | None => typeMap ++ [(typ, {| type := typ; numGroup := 0 + 1 |})]
    end.

(** [types]: the result of [orderBy(types, 'type')] is dropped, and the
    array filled by the [for ... in] loop is what is returned. *)
Definition types (items : list ExploreItem) : list TypeItem :=
  let typeMap := fold_left countType items [] in
  let types := snd <$> Js.for_in typeMap in
  let _ := Lodash.orderBy types (fun t => Js.CValue (Js.Str (type t))) None in
  types.

(** The error projection: [error.value?.response?.data?.<k> ?? '']. *)
Definition errorField (error : Js.Any) (k : string) : Js.Any :=
  Js.coalesce
    (Js.optional_get
       (Js.optional_get (Js.optional_get error "response") "data") k)
    (Js.Prim (Js.Str "")).

Definition errorMessage (error : Js.Any) : Js.Any := errorField error "message".

Definition errorCode (error : Js.Any) : Js.Any := errorField error "code".

(** [query]: sql-formatter's [format] is a function on strings, a parameter
    here; [None] stands for a call with anything else. *)
Definition query (format : string -> string) (error : Js.Any) : option string :=
  match errorField error "query" with
  | Js.Prim (Js.Str s) => Some (format s)
  | _ => None
  end.

End Derived.

(** ** The composable as a state machine *)

(** What the derived views are computed from: the fetcher's triple, and the
    three objects the consumer mutates. *)
Record State (QueryPart : Type) := {
  loading : bool;
  error : Js.Any;
  data : option (QueryResult QueryPart);
  typeFilter : list string;
  order : Order;
  pager : Pager
}.
Arguments loading {QueryPart} _.
Arguments error {QueryPart} _.
Arguments data {QueryPart} _.
Arguments typeFilter {QueryPart} _.
Arguments order {QueryPart} _.
Arguments pager {QueryPart} _.


(** A change of one reactive source. *)
Inductive Change (QueryPart : Type) :=
| SetLoading (b : bool)
| SetError (e : Js.Any)
| SetData (d : option (QueryResult QueryPart))
| SetTypeFilter (f : list string)
| SetOrder (o : Order)
| SetPage (n : Z)
| SetPerPage (n : Z).
Arguments SetLoading {QueryPart} _.
Arguments SetError {QueryPart} _.
Arguments SetData {QueryPart} _.
Arguments SetTypeFilter {QueryPart} _.
Arguments SetOrder {QueryPart} _.
Arguments SetPage {QueryPart} _.
Arguments SetPerPage {QueryPart} _.

(** The two [watch] calls of the composable. *)
Inductive Watcher :=
| WatchItems
| WatchFilteredItems.

(** The object [proxyRefs] returns, as a consumer reads it. *)
Record View (QueryPart : Type) := {
  view_pager : Pager;
  view_order : Order;
  view_loading : bool;
  view_items : list ExploreItem;
  view_pageItems : list ExploreItem;
  view_typeFilter : list string;
  view_types : list TypeItem;
  view_queryParts : option (list QueryPart);
  view_columns : list ColumnInfo;
  view_groupColumns : list ColumnInfo;
  view_plotColumns : list ColumnInfo;
  view_error : Js.Any;
  view_errorCode : Js.Any;
  view_errorMessage : Js.Any;
  view_query : option string
}.
Arguments view_pager {QueryPart} _.
Arguments view_items {QueryPart} _.
Arguments view_pageItems {QueryPart} _.
Arguments view_types {QueryPart} _.
Arguments view_queryParts {QueryPart} _.
Arguments view_columns {QueryPart} _.
Arguments view_errorCode {QueryPart} _.
Arguments view_errorMessage {QueryPart} _.
Arguments view_query {QueryPart} _.

Section Composable.
Context `{Otelattr} `{Js.Engine}.
Context {QueryPart : Type}.
Variable format : string -> string.

Definition with_pager (p : Pager) (st : State QueryPart) : State QueryPart :=
  {| loading := loading st; error := error st; data := data st;
     typeFilter := typeFilter st; order := order st; pager := p |}.

(** The assignment a change stands for. *)
Definition assign (c : Change QueryPart) (st : State QueryPart)
  : State QueryPart :=
  match c with
  | SetLoading b =>
      {| loading := b; error := error st; data := data st;
         typeFilter := typeFilter st; order := order st; pager := pager st |}
  | SetError e =>
      {| loading := loading st; error := e; data := data st;
         typeFilter := typeFilter st; order := order st; pager := pager st |}
  | SetData d =>
      {| loading := loading st; error := error st; data := d;
         typeFilter := typeFilter st; order := order st; pager := pager st |}
  | SetTypeFilter f =>
      {| loading := loading st; error := error st; data := data st;
         typeFilter := f; order := order st; pager := pager st |}
  | SetOrder o =>
      {| loading := loading st; error := error st; data := data st;
         typeFilter := typeFilter st; order := o; pager := pager st |}
  | SetPage n =>
      with_pager {| page := n; perPage := perPage (pager st);
                    numItem := numItem (pager st) |} st
  | SetPerPage n =>
      with_pager {| page := page (pager st); perPage := n;
                    numItem := numItem (pager st) |} st
  end.

(** Whether the source a watcher watches depends on what changed: [items]
    reads [data], [filteredItems] reads [typeFilter] and [items]. The value
    watched is an array, so the callback runs at every such change. *)
Definition triggers (c : Change QueryPart) (w : Watcher) : bool :=
  match w, c with
  | WatchItems, SetData _ => true
  | WatchFilteredItems, (SetData _ | SetTypeFilter _) => true
  | _, _ => false
  end.

(** The callbacks: both write the length they are handed to the pager. *)
Definition callback (w : Watcher) (st : State QueryPart) : State QueryPart :=
  match w with
  | WatchItems =>
      with_pager
        (set_numItem (Z.of_nat (length (items (data st)))) (pager st)) st
  | WatchFilteredItems =>
      with_pager
        (set_numItem
           (Z.of_nat (length (filteredItems (items (data st)) (typeFilter st))))
           (pager st)) st
  end.

(** The watchers in the order the composable registers them. Both have
    [flush: 'pre']: Vue queues the callbacks a change triggers and runs them
    in registration order before anything is rendered. *)
Definition watchers : list Watcher := [WatchItems; WatchFilteredItems].

Definition flush (run : Watcher -> bool) (st : State QueryPart)
  : State QueryPart :=
  fold_left (fun st w => if run w then callback w st else st) watchers st.

(** One pass: the change, then the callbacks it triggers. *)
Definition step (st : State QueryPart) (c : Change QueryPart)
  : State QueryPart :=
  flush (triggers c) (assign c st).


Definition run (st : State QueryPart) (cs : list (Change QueryPart))
  : State QueryPart :=
  fold_left step cs st.


(** What a consumer reads off the composable in state [st]. *)
Definition view (st : State QueryPart) : View QueryPart :=
  let filtered := filteredItems (items (data st)) (typeFilter st) in
  let sorted := sortedItems filtered (order st) in
  {| view_pager := pager st;
     view_order := order st;
     view_loading := loading st;
     view_items := sorted;
     view_pageItems := pageItems sorted (pager_pos (pager st));
     view_typeFilter := typeFilter st;
     view_types := types (items (data st));
     view_queryParts := queryParts (data st);
     view_columns := columns (data st);
     view_groupColumns := groupColumns (columns (data st));
     view_plotColumns := plotColumns (columns (data st));
     view_error := error st;
     view_errorCode := errorCode (error st);
     view_errorMessage := errorMessage (error st);
     view_query := query format (error st) |}.

End Composable.

(** ** The order of a date column, in words *)

(** How two items of a date-like column compare, [t] and [u] being the time
    values of their dates and [i] and [j] their positions: by time value
    when both dates are valid, and by position when the time values are
    equal or one of the dates is invalid. *)
Definition compareTimeValues (desc : bool) (t u : option Z) (i j : Z) : Z :=
  match t, u with
  | Some t, Some u =>
      if (t <? u)%Z then (if desc then 1 else -1)%Z
      else if (u <? t)%Z then (if desc then -1 else 1)%Z
      else (i - j)%Z
  | _, _ => (i - j)%Z
  end.

(** The entry [baseOrderBy] builds for [item], standing at position [i],
    under the iteratee of [sortedItems]. *)
Definition sortEntry `{Otelattr} `{Js.Engine} (column : string) (i : Z)
    (item : ExploreItem) : Lodash.Entry ExploreItem :=
  {| Lodash.criteria := [sortKey column (isDateField column) item];
     Lodash.index := i;
     Lodash.value := item |}.

Definition direction (desc : bool) : string := if desc then "desc" else "asc".


(** An entry of the sort whose item has a valid date. *)
Definition datedEntry `{Otelattr} `{Js.Engine} (c : string)
    (e : Lodash.Entry ExploreItem) : Prop :=
  e = sortEntry c (Lodash.index e) (Lodash.value e)
  /\ is_Some (Js.new_Date (field (Lodash.value e) c)).

(** ** Fixtures *)

Module Fixture.

Fixpoint split_at_dot (s : string) : string * string :=
  match s with
  | EmptyString => (EmptyString, EmptyString)
  | String a rest =>
      if Ascii.eqb a "." then (EmptyString, rest)
      else let '(typ, sys) := split_at_dot rest in (String a typ, sys)
  end.

(** Modelled from the spec: [@/models/otelattr] is not part of the source
    under study. The classifier cuts a system string such as [http.client]
    at its first separator and the type is what stands before it; the spec
    defines it on strings only, and names no literal key, so the keys are
    the dotted names of the attributes. *)
Definition otelattr : Otelattr := {|
  xkey_spanSystem := "span.system";
  xkey_spanTime := "span.time";
  xkey_spanCountPerMin := "span.count_per_min";
  splitTypeSystem v :=
    match v with
    | Js.Str s => split_at_dot s
    | _ => (EmptyString, EmptyString)
    end
|}.

(** Days from 1970-01-01 to a date of the proleptic Gregorian calendar. *)
Definition days_from_civil (y m d : Z) : Z :=
  let y := if (m <=? 2)%Z then (y - 1)%Z else y in
  let era := (y / 400)%Z in
  let yoe := (y - era * 400)%Z in
  let mp := if (2 <? m)%Z then (m - 3)%Z else (m + 9)%Z in
  let doy := ((153 * mp + 2) / 5 + d - 1)%Z in
  let doe := (yoe * 365 + yoe / 4 - yoe / 100 + doy)%Z in
  (era * 146097 + doe - 719468)%Z.

(** The date-only form [YYYY-MM-DD], which every engine reads as midnight
    UTC; days past the 28th and every other string are refused. *)
Definition parse_date_only (s : string) : option Z :=
  if (String.length s =? 10)%nat
     && String.eqb (substring 4 1 s) "-" && String.eqb (substring 7 1 s) "-"
  then
    y ← Js.digits (substring 0 4 s) 0%N;
    m ← Js.digits (substring 5 2 s) 0%N;
    d ← Js.digits (substring 8 2 s) 0%N;
    if (1 <=? m)%N && (m <=? 12)%N && (1 <=? d)%N && (d <=? 28)%N
    then Some (days_from_civil (Z.of_N y) (Z.of_N m) (Z.of_N d) * 86400000)%Z
    else None
  else None.

(** The unsigned decimal literals; the empty string converts to [0]. *)
Definition parse_number (s : string) : Js.Number :=
  match Js.digits s 0%N with
  | Some n => Js.Fin (inject_Z (Z.of_N n))
  | None => Js.NaN
  end.

Definition engine : Js.Engine := {|
  Js.Date_parse := parse_date_only;
  Js.StringToNumber := parse_number
|}.

(** An item with a system, a count and a time. *)
Definition item (system : string) (count : Z) (time : string) : ExploreItem :=
  <[ "span.system" := Js.Str system ]>
  (<[ "span.count_per_min" := Js.Num (Js.Fin (inject_Z count)) ]>
  (<[ "span.time" := Js.Str time ]> ∅)).

Definition A : ExploreItem := item "db.postgres" 3 "2021-03-01".
Definition B : ExploreItem := item "http.client" 1 "n/a".
Definition C : ExploreItem := item "db.mysql" 1 "2020-01-01".

End Fixture.

(** * Properties *)

(** ** Arrays *)

Section ArrayFacts.

Lemma indexOf_from_bound l x i :
  (0 <= i)%Z -> (Js.indexOf_from l x i = -1 \/ i <= Js.indexOf_from l x i)%Z.
Proof.
  revert i. induction l as [|y l IH]; intros i Hi; simpl; [by left|].
  destruct (String.eqb y x); [right; lia|].
  destruct (IH (i + 1)%Z) as [->|?]; [lia|by left|right; lia].
Qed.

Lemma indexOf_from_elem l x i :
  (0 <= i)%Z -> (0 <= Js.indexOf_from l x i)%Z <-> x ∈ l.
Proof.
  revert i. induction l as [|y l IH]; intros i Hi; simpl.
  - split; [lia|]. by intros ?%elem_of_nil.
  - destruct (String.eqb_spec y x) as [->|Hne].
    + split; [intros _; left|done].
    + rewrite IH by lia. rewrite elem_of_cons. split; [by right|]. by intros [?|?].
Qed.

Lemma indexOf_elem l x : (0 <= Js.indexOf l x)%Z <-> x ∈ l.
Proof. by apply indexOf_from_elem. Qed.

Lemma slice_contiguous {A} (l : list A) (i j : Z) :
  exists before after, l = before ++ Js.slice l i j ++ after.
Proof.
  unfold Js.slice.
  set (k := Z.to_nat (Js.relative_index (Z.of_nat (length l)) i)).
  set (n := Z.to_nat _).
  exists (take k l), (drop n (drop k l)).
  by rewrite take_drop, take_drop.
Qed.

Lemma sort_insert_perm {A} (cmp : A -> A -> Z) x l :
  Js.sort_insert cmp x l ≡ₚ x :: l.
Proof.
  induction l as [|y l IH]; simpl; [done|].
  destruct (cmp x y <=? 0)%Z; [done|].
  rewrite IH. apply perm_swap.
Qed.

Lemma Array_sort_perm {A} (cmp : A -> A -> Z) l : Js.Array_sort cmp l ≡ₚ l.
Proof.
  induction l as [|x l IH]; simpl; [done|].
  by rewrite sort_insert_perm, IH.
Qed.





Lemma StronglySorted_sublist {A} (R : relation A) (k l : list A) :
  k `sublist_of` l -> StronglySorted R l -> StronglySorted R k.
Proof.
  induction 1 as [|x k l Hsub IH|x k l Hsub IH]; intros Hl; [done|..].
  - apply StronglySorted_cons in Hl as [Hx Hl].
    constructor; [by apply IH|].
    rewrite Forall_forall in Hx |- *. intros y Hy.
    apply Hx. by eapply elem_of_sublist.
  - apply StronglySorted_cons in Hl as [_ Hl]. by apply IH.
Qed.

End ArrayFacts.

(** ** The sort under a consistent comparator *)

(** [cmp] orders the elements that satisfy [P] the way [R] does, and [R] is
    transitive on them. *)
Section Consistent.
Context {A : Type} (cmp : A -> A -> Z) (R : relation A) (P : A -> Prop).
Hypothesis R_trans : forall x y z, P x -> P y -> P z -> R x y -> R y z -> R x z.
Hypothesis cmp_le : forall x y, P x -> P y -> (cmp x y <= 0)%Z -> R x y.
Hypothesis cmp_gt : forall x y, P x -> P y -> (0 < cmp x y)%Z -> R y x.

Lemma sort_insert_sorted x l :
  P x -> Forall P l -> StronglySorted R l ->
  StronglySorted R (Js.sort_insert cmp x l).
Proof.
  intros Hx HP Hl. induction Hl as [|y l Hl IH Hy]; simpl.
  - repeat constructor.
  - apply Forall_cons in HP as [Py HP].
    destruct (Z.leb_spec (cmp x y) 0) as [Hle|Hgt].
    + constructor; [by constructor|].
      constructor; [by apply cmp_le|].
      rewrite Forall_forall in Hy, HP |- *. intros z Hz.
      apply (R_trans x y z); auto.
    + constructor; [by apply IH|].
      rewrite sort_insert_perm. constructor; [by apply cmp_gt|done].
Qed.

Lemma Array_sort_sorted l :
  Forall P l -> StronglySorted R (Js.Array_sort cmp l).
Proof.
  induction l as [|x l IH]; intros HP; simpl; [constructor|].
  apply Forall_cons in HP as [Px HP].
  apply sort_insert_sorted; [done| |by apply IH].
  by rewrite Array_sort_perm.
Qed.

(** Whatever the algorithm, there is one sorted arrangement of [l] when [R]
    tells any two of its elements apart: what the insertion sort returns is
    what every sort returns. *)
Lemma Array_sort_unique l out :
  (forall x y, x ∈ l -> y ∈ l -> R x y -> R y x -> x = y) ->
  Forall P l -> out ≡ₚ l -> StronglySorted R out ->
  out = Js.Array_sort cmp l.
Proof.
  intros Hasym HP Hperm Hout.
  apply (StronglySorted_unique_strong R); [|done|by apply Array_sort_sorted|].
  - intros x y Hx Hy. apply Hasym; [by rewrite <- Hperm|].
    by rewrite <- (Array_sort_perm cmp l).
  - by rewrite Array_sort_perm.
Qed.

End Consistent.

(** ** The filter step *)

Section FilterFacts.
Context `{Otelattr}.

Lemma keepItem_spec typeFilter item :
  keepItem typeFilter item = true <->
  Js.truthy (field item xkey_spanSystem) = false
  \/ (splitTypeSystem (field item xkey_spanSystem)).1 ∈ typeFilter.
Proof.
  unfold keepItem.
  destruct (Js.truthy (field item xkey_spanSystem)) eqn:Hsys; simpl.
  - destruct (splitTypeSystem _) as [typ sys]; simpl.
    rewrite Z.leb_le, indexOf_elem. split; [by right|].
    by intros [?|?].
  - split; [by left|done].
Qed.

(** C5: with the empty type filter the filter step returns the items it was
    given, unchanged. *)
Theorem filteredItems_no_filter (items : list ExploreItem) :
  filteredItems items [] = items.
Proof. unfold filteredItems. by rewrite Nat.eqb_refl. Qed.

(** C4: under a non-empty type filter an item of the collection is kept
    exactly when its system field is falsy (absent or empty) or the type
    classified from it is a member of the filter. *)
Theorem filteredItems_keeps (items : list ExploreItem)
    (typeFilter : list string) (item : ExploreItem) :
  typeFilter <> [] ->
  item ∈ filteredItems items typeFilter <->
  item ∈ items
  /\ (Js.truthy (field item xkey_spanSystem) = false
      \/ (splitTypeSystem (field item xkey_spanSystem)).1 ∈ typeFilter).
Proof.
  intros Hne. unfold filteredItems.
  destruct typeFilter as [|t typeFilter]; [done|]. simpl.
  rewrite !list_elem_of_In, filter_In, <- !list_elem_of_In.
  by rewrite keepItem_spec.
Qed.

Lemma filteredItems_sublist (items : list ExploreItem) typeFilter :
  filteredItems items typeFilter `sublist_of` items.
Proof.
  unfold filteredItems. destruct (_ =? _)%nat; [done|].
  induction items as [|x items IH]; simpl; [done|].
  destruct (keepItem typeFilter x); by constructor.
Qed.

End FilterFacts.

(** ** The sort and page steps *)

Section SortFacts.
Context `{Otelattr} `{Js.Engine}.

Lemma value_entries_from {A} (iteratees : list (A -> Js.Criterion)) from
    (collection : list A) :
  Lodash.value <$> Lodash.entries_from iteratees from collection = collection.
Proof.
  revert from. induction collection as [|v rest IH]; intros from; simpl; [done|].
  by rewrite IH.
Qed.

Lemma baseOrderBy_perm {A} (collection : list A) iteratees orders :
  Lodash.baseOrderBy collection iteratees orders ≡ₚ collection.
Proof.
  unfold Lodash.baseOrderBy, Lodash.sortedEntries.
  rewrite Array_sort_perm. by rewrite value_entries_from.
Qed.

Lemma sortedItems_perm (filtered : list ExploreItem) (order : Order) :
  sortedItems filtered order ≡ₚ filtered.
Proof.
  unfold sortedItems. destruct (column order) as [c|]; [|done].
  destruct (String.eqb c ""); [done|]. apply baseOrderBy_perm.
Qed.

(** C6: with no order column the sort step returns the items it was given,
    unchanged, whatever the direction. *)
Theorem sortedItems_no_column (filtered : list ExploreItem) (desc : bool) :
  sortedItems filtered {| column := None; desc := desc |} = filtered.
Proof. reflexivity. Qed.


(** Two entries the criteria do not tell apart compare by position. *)
Lemma compareMultiple_tie {A} order (c d : Js.Criterion) i j (a b : A) :
  Lodash.compareAscending c d = 0%Z ->
  Lodash.compareMultiple [order]
    {| Lodash.criteria := [c]; Lodash.index := i; Lodash.value := a |}
    {| Lodash.criteria := [d]; Lodash.index := j; Lodash.value := b |}
  = (i - j)%Z.
Proof. intros Htie. unfold Lodash.compareMultiple. simpl. by rewrite Htie. Qed.


(** Ties and the engine: in any arrangement that is sorted by the comparator
    of [orderBy], of two entries whose criteria compare equal the one that
    came later in the collection does not stand first. *)
Lemma tie_order_any_engine {A} order (out : list (Lodash.Entry A))
    (c d : Js.Criterion) (i j : Z) (a b : A) :
  StronglySorted (fun x y => (Lodash.compareMultiple [order] x y <= 0)%Z) out ->
  Lodash.compareAscending d c = 0%Z -> (i < j)%Z ->
  ~ [ {| Lodash.criteria := [d]; Lodash.index := j; Lodash.value := b |};
      {| Lodash.criteria := [c]; Lodash.index := i; Lodash.value := a |} ]
    `sublist_of` out.
Proof.
  intros Hout Htie Hij Hsub.
  apply (StronglySorted_sublist _ _ _ Hsub) in Hout.
  apply StronglySorted_cons in Hout as [Hle _].
  apply Forall_cons in Hle as [Hle _].
  rewrite compareMultiple_tie in Hle by done. lia.
Qed.


(** C3: the page is a run of consecutive elements of the sorted list, the
    sorted list is a permutation of the filtered list, and every filtered
    item is one of the raw items. *)
Theorem pipeline_round_trip (items : list ExploreItem)
    (typeFilter : list string) (order : Order) (pos : Pos) :
  let filtered := filteredItems items typeFilter in
  let sorted := sortedItems filtered order in
  (exists before after, sorted = before ++ pageItems sorted pos ++ after)
  /\ sorted ≡ₚ filtered
  /\ (forall item, item ∈ filtered -> item ∈ items).
Proof.
  intros filtered sorted. split; [|split].
  - apply slice_contiguous.
  - apply sortedItems_perm.
  - intros item Hin. eapply elem_of_sublist; [done|]. apply filteredItems_sublist.
Qed.

End SortFacts.

(** ** Date columns *)

(** Case analysis on every comparison of two time values in the goal. *)
Ltac ltb_cases :=
  repeat match goal with
  | |- context [(?a <? ?b)%Z] => destruct (Z.ltb_spec a b)
  end.

Section DateFacts.
Context `{Otelattr} `{Js.Engine}.

Lemma Qle_bool_inject_Z (a b : Z) :
  Qle_bool (inject_Z a) (inject_Z b) = (a <=? b)%Z.
Proof. unfold Qle_bool. simpl. by rewrite !Z.mul_1_r. Qed.

(** Two [Date] objects compare by time value, and an Invalid Date compares
    equal to every other date. *)
Lemma compareAscending_dates (t u : option Z) :
  Lodash.compareAscending (Js.CDate t) (Js.CDate u)
  = match t, u with
    | Some t, Some u =>
        if (u <? t)%Z then 1%Z else if (t <? u)%Z then (-1)%Z else 0%Z
    | _, _ => 0%Z
    end.
Proof.
  unfold Lodash.compareAscending, Js.gt, Js.lt. simpl.
  destruct t as [t|], u as [u|]; simpl; try done.
  rewrite !Qle_bool_inject_Z, !orb_false_r.
  rewrite <- !Z.ltb_antisym. by destruct (u <? t)%Z, (t <? u)%Z.
Qed.

Lemma sortedItems_unfold (filtered : list ExploreItem) c d :
  c <> "" ->
  sortedItems filtered {| column := Some c; desc := d |}
  = Lodash.value <$>
      Js.Array_sort (Lodash.compareMultiple [direction d])
        (Lodash.entries_from [sortKey c (isDateField c)] 0%Z filtered).
Proof.
  intros Hc. unfold sortedItems. simpl.
  by destruct (String.eqb_spec c "").
Qed.

Lemma compareMultiple_dates (c : string) (d : bool) (a b : ExploreItem)
    (i j : Z) :
  isDateField c = true ->
  Lodash.compareMultiple [direction d] (sortEntry c i a) (sortEntry c j b)
  = compareTimeValues d (Js.new_Date (field a c)) (Js.new_Date (field b c)) i j.
Proof.
  intros Hdate. unfold Lodash.compareMultiple, sortEntry, sortKey. simpl.
  rewrite Hdate, compareAscending_dates. unfold compareTimeValues.
  destruct (Js.new_Date (field a c)) as [t|],
    (Js.new_Date (field b c)) as [u|]; simpl; try done.
  ltb_cases; simpl; try lia; by destruct d.
Qed.

Lemma entries_from_dated (c : string) from (l : list ExploreItem) :
  Forall (fun item => is_Some (Js.new_Date (field item c))) l ->
  Forall (datedEntry c)
    (Lodash.entries_from [sortKey c (isDateField c)] from l).
Proof.
  intros Hl. revert from.
  induction Hl as [|item l Hitem Hl IH]; intros from; simpl;
    constructor; [by split|by apply IH].
Qed.





Lemma entries_from_lookup {A} (iteratees : list (A -> Js.Criterion)) from
    (l : list A) (k : nat) :
  Lodash.entries_from iteratees from l !! k
  = (fun v => {| Lodash.criteria := (fun iteratee => iteratee v) <$> iteratees;
                 Lodash.index := (from + Z.of_nat k)%Z;
                 Lodash.value := v |}) <$> l !! k.
Proof.
  revert from k. induction l as [|v l IH]; intros from [|k]; simpl; try done.
  - by rewrite Z.add_0_r.
  - rewrite IH. destruct (l !! k); simpl; [|done]. do 2 f_equal. lia.
Qed.

(** The position tells the entries of a collection apart. *)
Lemma entries_from_index_inj {A} (iteratees : list (A -> Js.Criterion)) from
    (l : list A) (x y : Lodash.Entry A) :
  x ∈ Lodash.entries_from iteratees from l ->
  y ∈ Lodash.entries_from iteratees from l ->
  Lodash.index x = Lodash.index y -> x = y.
Proof.
  intros [k Hk]%list_elem_of_lookup [n Hn]%list_elem_of_lookup.
  rewrite entries_from_lookup in Hk, Hn.
  destruct (l !! k) as [v|] eqn:Hv; [|done].
  destruct (l !! n) as [w|] eqn:Hw; [|done].
  simpl in Hk, Hn. injection Hk as <-. injection Hn as <-. simpl.
  intros Hidx. assert (k = n) by lia. subst k.
  rewrite Hv in Hw. by injection Hw as ->.
Qed.

(** X14: on valid dates the comparator is a total order of the entries, so the
    sorted arrangement is the same under every sorting algorithm: whatever
    list [out] an engine returns, it unwraps to the items computed here. *)
Lemma sortedItems_dates_any_engine (filtered : list ExploreItem) c d
    (out : list (Lodash.Entry ExploreItem)) :
  c <> "" -> isDateField c = true ->
  Forall (fun item => is_Some (Js.new_Date (field item c))) filtered ->
  out ≡ₚ Lodash.entries_from [sortKey c (isDateField c)] 0%Z filtered ->
  StronglySorted
    (fun x y => (Lodash.compareMultiple [direction d] x y <= 0)%Z) out ->
  Lodash.value <$> out = sortedItems filtered {| column := Some c; desc := d |}.
Proof.
  intros Hc Hdate Hvalid Hperm Hout. rewrite sortedItems_unfold by done.
  f_equal.
  assert (Hcmp : forall x y, datedEntry c x -> datedEntry c y ->
    Lodash.compareMultiple [direction d] x y
    = compareTimeValues d (Js.new_Date (field (Lodash.value x) c))
        (Js.new_Date (field (Lodash.value y) c))
        (Lodash.index x) (Lodash.index y)).
  { intros x y [Hx _] [Hy _]. rewrite Hx, Hy at 1.
    by rewrite compareMultiple_dates. }
  apply (Array_sort_unique _
           (fun x y => (Lodash.compareMultiple [direction d] x y <= 0)%Z)
           (datedEntry c)); try done.
  - intros x y z Hx Hy Hz.
    rewrite (Hcmp x y), (Hcmp y z), (Hcmp x z) by done.
    destruct Hx as [_ [t ->]], Hy as [_ [u ->]], Hz as [_ [v ->]].
    unfold compareTimeValues.
    destruct d; ltb_cases; lia.
  - intros x y Hx Hy. rewrite (Hcmp x y), (Hcmp y x) by done.
    destruct Hx as [_ [t ->]], Hy as [_ [u ->]]. unfold compareTimeValues.
    destruct d; ltb_cases; lia.
  - intros x y Hx Hy.
    pose proof (entries_from_dated c 0%Z filtered Hvalid) as Hdated.
    rewrite Forall_forall in Hdated.
    rewrite (Hcmp x y), (Hcmp y x) by auto.
    destruct (Hdated x Hx) as [_ [t Ht]], (Hdated y Hy) as [_ [u Hu]].
    rewrite Ht, Hu. unfold compareTimeValues. intros Hxy Hyx.
    apply (entries_from_index_inj _ _ _ _ _ Hx Hy).
    revert Hxy Hyx. destruct d; ltb_cases; lia.
  - by apply entries_from_dated.
Qed.


End DateFacts.

(** ** The composable *)

Section ComposableFacts.
Context `{Otelattr} `{Js.Engine}.
Context {QueryPart : Type}.





Lemma slice_nil {A} i j : Js.slice (@nil A) i j = [].
Proof. unfold Js.slice. by rewrite drop_nil, take_nil. Qed.

Lemma filteredItems_nil typeFilter : filteredItems [] typeFilter = [].
Proof. unfold filteredItems. by destruct (_ =? _)%nat. Qed.

Lemma sortedItems_nil order : sortedItems [] order = [].
Proof.
  unfold sortedItems. destruct (column order) as [c|]; [|done].
  by destruct (String.eqb c "").
Qed.

(** C10: with no query result the view's [items], [pageItems] and [columns]
    are the empty list, and [queryParts] is no list at all. *)
Theorem view_without_data (format : string -> string) (loading : bool)
    (error : Js.Any) (typeFilter : list string) (order : Order)
    (pager : Pager) :
  let v := view format
             {| loading := loading; error := error; data := @None (QueryResult QueryPart);
                typeFilter := typeFilter; order := order; pager := pager |} in
  view_items v = [] /\ view_pageItems v = [] /\ view_columns v = []
  /\ view_queryParts v = None.
Proof.
  simpl. rewrite filteredItems_nil, sortedItems_nil.
  repeat split. apply slice_nil.
Qed.

End ComposableFacts.

(** ** The error projection *)

Section ErrorFacts.

Lemma errorField_absent error k :
  Js.any_nullish
    (Js.optional_get (Js.optional_get error "response") "data") = true ->
  errorField error k = Js.Prim (Js.Str "").
Proof.
  intros Hdata. unfold errorField.
  unfold Js.optional_get at 1. by rewrite Hdata.
Qed.

(** C9: when the error has no [response.data] (no error at all included),
    the message, the code and the formatted query are the empty string;
    every read on the way is guarded, so none of them throws. *)
Theorem error_projection_absent (format : string -> string) (error : Js.Any) :
  format "" = "" ->
  Js.any_nullish
    (Js.optional_get (Js.optional_get error "response") "data") = true ->
  errorMessage error = Js.Prim (Js.Str "")
  /\ errorCode error = Js.Prim (Js.Str "")
  /\ query format error = Some "".
Proof.
  intros Hformat Hdata. unfold errorMessage, errorCode, query.
  rewrite !errorField_absent by done. by rewrite Hformat.
Qed.

End ErrorFacts.

(** ** The pipeline on the fixtures *)

Section Examples.
Import Fixture.
#[local] Existing Instance otelattr.
#[local] Existing Instance engine.

(** C4 at the items [A], [B], [C] under the filter [db]. *)
Lemma filteredItems_keeps_witness :
  ["db"] <> []
  /\ (A ∈ filteredItems [A; B; C] ["db"] <->
      A ∈ [A; B; C]
      /\ (Js.truthy (field A xkey_spanSystem) = false
          \/ (splitTypeSystem (field A xkey_spanSystem)).1 ∈ ["db"])).
Proof.
  split; [done|]. apply (filteredItems_keeps [A; B; C] ["db"] A). done.
Defined.




(** C9 with no error, the formatter leaving the empty query as it is. *)
Lemma error_projection_absent_witness :
  errorMessage (Js.Prim Js.Undefined) = Js.Prim (Js.Str "")
  /\ errorCode (Js.Prim Js.Undefined) = Js.Prim (Js.Str "")
  /\ query (fun s => s) (Js.Prim Js.Undefined) = Some "".
Proof.
  apply (error_projection_absent (fun s => s) (Js.Prim Js.Undefined));
    reflexivity.
Defined.

(** C2: [http] is seen before [db] and stays before it: the array returned
    is in first-seen order, not in ascending order of the type. *)
Example types_first_seen_order :
  types [B; A; C]
  = [ {| type := "http"; numGroup := 1 |}; {| type := "db"; numGroup := 2 |} ]
  /\ Js.str_lt "db" "http" = true.
Proof. vm_compute. split; reflexivity. Qed.

End Examples.

(** * Further properties of the composable *)

(** ** Date-like columns *)

Section DateFieldFacts.

Lemma substring_all (s : string) : substring 0 (String.length s) s = s.
Proof. induction s as [|a s IH]; simpl; [done|by rewrite IH]. Qed.

Lemma substring_append_skip (p t : string) (m : nat) :
  substring (String.length p) m (p ++ t) = substring 0 m t.
Proof. induction p as [|a p IH]; simpl; [done|apply IH]. Qed.

Lemma length_append (p t : string) :
  String.length (p ++ t) = (String.length p + String.length t)%nat.
Proof. induction p as [|a p IH]; simpl; [done|by rewrite IH]. Qed.

Lemma substring_split (s : string) (k : nat) :
  (k <= String.length s)%nat ->
  s = (substring 0 k s ++ substring k (String.length s - k) s)%string.
Proof.
  revert k. induction s as [|a s IH]; intros [|k] Hk; simpl in *;
    try done; try lia.
  - by rewrite substring_all.
  - change (String a s
            = String a (substring 0 k s
                        ++ substring k (String.length s - k) s)%string).
    f_equal. apply IH. lia.
Qed.

(** [s.endsWith(t)] holds exactly of the strings that are [t] after some
    prefix. *)
Lemma endsWith_iff (s t : string) :
  Js.endsWith s t = true <-> exists p : string, s = (p ++ t)%string.
Proof.
  unfold Js.endsWith. split.
  - destruct (Nat.leb_spec (String.length t) (String.length s)) as [Hle|];
      [|done].
    intros Heq%String.eqb_eq.
    exists (substring 0 (String.length s - String.length t) s).
    pose proof (substring_split s (String.length s - String.length t)) as Hs.
    replace (String.length s - (String.length s - String.length t))%nat
      with (String.length t) in Hs by lia.
    rewrite Heq in Hs. apply Hs. lia.
  - intros [p ->]. rewrite length_append.
    destruct (Nat.leb_spec (String.length t)
                (String.length p + String.length t)) as [_|]; [|lia].
    replace (String.length p + String.length t - String.length t)%nat
      with (String.length p) by lia.
    rewrite substring_append_skip, substring_all. apply String.eqb_refl.
Qed.

Context `{Otelattr}.

Lemma hasField_iff (s fld : string) :
  hasField s fld = true <->
  exists p : string, s = (p ++ "." ++ fld)%string \/ s = (p ++ "_" ++ fld)%string.
Proof.
  unfold hasField. rewrite orb_true_iff, !endsWith_iff. split.
  - intros [[p ->]|[p ->]]; exists p; auto.
  - intros [p [->| ->]]; [left|right]; by exists p.
Qed.

(** X1: a column is date-like exactly when it is the span time key or ends in
    [.time], [_time], [.date] or [_date]; the match is on the suffix, with
    its separator, and on nothing else. *)
Theorem isDateField_iff (s : string) :
  isDateField s = true <->
  s = xkey_spanTime
  \/ exists p : string,
       s = (p ++ ".time")%string \/ s = (p ++ "_time")%string
       \/ s = (p ++ ".date")%string \/ s = (p ++ "_date")%string.
Proof.
  unfold isDateField. rewrite !orb_true_iff, String.eqb_eq, !hasField_iff.
  split.
  - intros [[->|[p Hp]]|[p Hp]]; [by left|right; exists p..]; simpl in Hp;
      intuition.
  - intros [->|[p [Hp|[Hp|[Hp|Hp]]]]]; [by left; left|..].
    + left; right. exists p. by left.
    + left; right. exists p. by right.
    + right. exists p. by left.
    + right. exists p. by right.
Qed.

End DateFieldFacts.

(** ** The type filter *)

(** The names every object inherits from [Object.prototype]. The loop of
    [types] reads [typeMap[type]]; for one of these names that read finds
    the inherited member, so the loop is followed here for the other
    labels. *)
Definition Object_prototype_members : list string :=
  [ "constructor"; "__defineGetter__"; "__defineSetter__"; "hasOwnProperty";
    "__lookupGetter__"; "__lookupSetter__"; "isPrototypeOf";
    "propertyIsEnumerable"; "toString"; "valueOf"; "__proto__";
    "toLocaleString" ].

(** A list without its repetitions, each element where it comes first. *)
Fixpoint firstSeen (l : list string) : list string :=
  match l with
  | [] => []
  | x :: l' => x :: filter (fun y => y <> x) (firstSeen l')
  end.

Section TypeLabels.
Context `{Otelattr}.

(** The type an item is counted under: none when its system is falsy. *)
Definition typeLabel (item : ExploreItem) : option string :=
  let system := field item xkey_spanSystem in
  if Js.truthy system then Some (splitTypeSystem system).1 else None.

Definition typeLabels (items : list ExploreItem) : list string :=
  omap typeLabel items.

Definition plainLabels (items : list ExploreItem) : Prop :=
  Forall (fun t => t ∉ Object_prototype_members) (typeLabels items).

(** What one turn of the loop of [types] does with the label [typ]. *)
Definition bumpType (typeMap : list (string * TypeItem)) (typ : string)
  : list (string * TypeItem) :=
  match Js.assoc typ typeMap with
  | Some _ => increment typ typeMap
  | None => typeMap ++ [(typ, {| type := typ; numGroup := 0 + 1 |})]
  end.

End TypeLabels.

Section FilterMore.
Context `{Otelattr}.

Lemma keepItem_label typeFilter item :
  keepItem typeFilter item = true <->
  forall t, typeLabel item = Some t -> t ∈ typeFilter.
Proof.
  rewrite keepItem_spec. unfold typeLabel.
  destruct (Js.truthy (field item xkey_spanSystem)); split.
  - intros [?|?] t [= <-]; done.
  - intros Ht. right. by apply Ht.
  - done.
  - by left.
Qed.

Lemma filter_all_true {A} (f : A -> bool) (l : list A) :
  (forall x, x ∈ l -> f x = true) -> List.filter f l = l.
Proof.
  induction l as [|x l IH]; intros Hf; simpl; [done|].
  rewrite Hf by left. f_equal. apply IH. intros y Hy. apply Hf. by right.
Qed.

Lemma filter_sublist_impl {A} (f g : A -> bool) (l : list A) :
  (forall x, f x = true -> g x = true) ->
  List.filter f l `sublist_of` List.filter g l.
Proof.
  intros Hfg. induction l as [|x l IH]; simpl; [done|].
  destruct (f x) eqn:Hf.
  - rewrite (Hfg x Hf). by apply sublist_skip.
  - destruct (g x); [by apply sublist_cons|done].
Qed.

(** X2: filtering what is already filtered changes nothing. *)
Theorem filteredItems_idempotent (items : list ExploreItem)
    (typeFilter : list string) :
  filteredItems (filteredItems items typeFilter) typeFilter
  = filteredItems items typeFilter.
Proof.
  unfold filteredItems. destruct (length typeFilter =? 0)%nat; [done|].
  apply filter_all_true. intros x Hx.
  apply list_elem_of_In, filter_In in Hx. tauto.
Qed.

(** X3: the type filter is used as a set: two filters with the same members,
    in whatever order and however often repeated, keep the same items. *)
Theorem filteredItems_same_members (items : list ExploreItem)
    (typeFilter typeFilter' : list string) :
  (forall t, t ∈ typeFilter <-> t ∈ typeFilter') ->
  filteredItems items typeFilter = filteredItems items typeFilter'.
Proof.
  intros Hsame. unfold filteredItems.
  destruct typeFilter as [|t typeFilter], typeFilter' as [|t' typeFilter'];
    simpl; [done| | |].
  - exfalso. eapply not_elem_of_nil, Hsame. by left.
  - exfalso. eapply not_elem_of_nil, Hsame. by left.
  - apply filter_ext. intros item.
    apply eq_true_iff_eq. rewrite !keepItem_label.
    split; intros Hk u Hu; apply Hsame; by apply Hk.
Qed.

(** X4: adding types to a filter that is not empty only adds items, and keeps
    the items in their order. *)
Theorem filteredItems_grows (items : list ExploreItem)
    (typeFilter typeFilter' : list string) :
  typeFilter <> [] ->
  (forall t, t ∈ typeFilter -> t ∈ typeFilter') ->
  filteredItems items typeFilter `sublist_of` filteredItems items typeFilter'.
Proof.
  intros Hne Hsub. unfold filteredItems.
  destruct typeFilter as [|t typeFilter]; [done|].
  destruct typeFilter' as [|t' typeFilter'].
  { exfalso. eapply not_elem_of_nil, Hsub. by left. }
  simpl. apply filter_sublist_impl. intros item.
  rewrite !keepItem_label. intros Hk u Hu. by apply Hsub, Hk.
Qed.

End FilterMore.

(** ** The type counts *)

Section ForInFacts.
Context {V : Type}.

Lemma insert_by_index_perm n (kv : string * V) l :
  Js.insert_by_index n kv l ≡ₚ (n, kv) :: l.
Proof.
  induction l as [|[m kv'] l IH]; simpl; [done|].
  destruct (n <? m)%N; [done|]. rewrite IH. apply perm_swap.
Qed.

Lemma index_props_perm (props : list (string * V)) :
  snd <$> Js.index_props props
  ≡ₚ List.filter
       (fun kv => bool_decide (is_Some (Js.array_index kv.1))) props.
Proof.
  induction props as [|[k v] props IH]; simpl; [done|].
  destruct (Js.array_index k) as [n|] eqn:Hk; simpl.
  - rewrite insert_by_index_perm. simpl. by rewrite IH.
  - done.
Qed.

Lemma filter_partition_perm {A} (f : A -> bool) (l : list A) :
  List.filter f l ++ List.filter (fun x => negb (f x)) l ≡ₚ l.
Proof.
  induction l as [|x l IH]; simpl; [done|].
  destruct (f x); simpl.
  - by rewrite IH.
  - rewrite <- Permutation_middle. by rewrite IH.
Qed.

(** The loop [for (k in o)] visits every own property once. *)
Lemma for_in_perm (props : list (string * V)) : Js.for_in props ≡ₚ props.
Proof.
  unfold Js.for_in. rewrite index_props_perm.
  apply (filter_partition_perm
           (fun kv => bool_decide (is_Some (Js.array_index kv.1)))).
Qed.

(** With no array index among the names it visits them as created. *)
Lemma for_in_plain (props : list (string * V)) :
  Forall (fun kv => Js.array_index kv.1 = None) props ->
  Js.for_in props = props.
Proof.
  intros Hplain. unfold Js.for_in.
  assert (Js.index_props props = []) as ->.
  { induction Hplain as [|[k v] props Hk Hplain IH]; [done|].
    simpl in *. by rewrite Hk. }
  simpl. induction Hplain as [|[k v] props Hk Hplain IH]; [done|].
  simpl in *. rewrite Hk. simpl. by rewrite IH.
Qed.

End ForInFacts.

(** How often the label [t] occurs among [labels]. *)
Definition occurrences (t : string) (labels : list string) : nat :=
  length (filter (fun x => x = t) labels).

(** [typeMap] when the loop of [types] has gone through [labels]: its names
    are the labels in first-seen order, and each entry carries its name and
    the number of times the loop met it. *)
Definition counted (labels : list string) (typeMap : list (string * TypeItem))
  : Prop :=
  typeMap.*1 = firstSeen labels
  /\ Forall (fun kv => type kv.2 = kv.1
                       /\ numGroup kv.2 = Z.of_nat (occurrences kv.1 labels))
       typeMap.

Section FirstSeenFacts.

Lemma elem_of_firstSeen (x : string) l : x ∈ firstSeen l <-> x ∈ l.
Proof.
  induction l as [|y l IH]; simpl; [done|].
  rewrite !elem_of_cons, list_elem_of_filter, IH.
  destruct (decide (x = y)); tauto.
Qed.

Lemma NoDup_firstSeen l : NoDup (firstSeen l).
Proof.
  induction l as [|y l IH]; simpl; constructor.
  - rewrite list_elem_of_filter. tauto.
  - by apply NoDup_filter.
Qed.

Lemma firstSeen_snoc l (x : string) :
  firstSeen (l ++ [x])
  = if decide (x ∈ l) then firstSeen l else firstSeen l ++ [x].
Proof.
  induction l as [|y l IH]; simpl; [done|]. rewrite IH.
  destruct (decide (x ∈ l)) as [Hin|Hnin];
    destruct (decide (x ∈ y :: l)) as [Hin'|Hnin']; try done.
  - exfalso. apply Hnin'. by right.
  - apply elem_of_cons in Hin' as [->|?]; [|done].
    rewrite filter_app, filter_cons_False, filter_nil by tauto.
    by rewrite app_nil_r.
  - apply not_elem_of_cons in Hnin' as [Hne _].
    by rewrite filter_app, filter_cons_True, filter_nil by done.
Qed.

Lemma occurrences_snoc t l x :
  occurrences t (l ++ [x])
  = (occurrences t l + if decide (x = t) then 1 else 0)%nat.
Proof.
  unfold occurrences. rewrite filter_app, length_app. f_equal.
  destruct (decide (x = t)).
  - by rewrite filter_cons_True.
  - by rewrite filter_cons_False.
Qed.

Lemma occurrences_not_elem_of t l : t ∉ l -> occurrences t l = 0%nat.
Proof.
  intros Hnin. unfold occurrences.
  induction l as [|y l IH]; [done|].
  apply not_elem_of_cons in Hnin as [Hne Hnin].
  rewrite filter_cons_False by congruence. by apply IH.
Qed.

Lemma occurrences_elem_of t l : t ∈ l -> (1 <= occurrences t l)%nat.
Proof.
  intros Hin. unfold occurrences.
  assert (t ∈ filter (fun x => x = t) l) as Hf
    by by apply list_elem_of_filter.
  destruct (filter _ l); [by apply elem_of_nil in Hf|simpl; lia].
Qed.

End FirstSeenFacts.

Section TypeMapFacts.

Lemma assoc_None {V} k (typeMap : list (string * V)) :
  Js.assoc k typeMap = None <-> k ∉ typeMap.*1.
Proof.
  induction typeMap as [|[k' v] typeMap IH]; simpl.
  - split; [intros _; apply not_elem_of_nil|done].
  - rewrite not_elem_of_cons. destruct (String.eqb_spec k' k) as [->|Hne].
    + split; [done|]. by intros [? _].
    + rewrite IH. split; [by split|tauto].
Qed.

Lemma increment_names typ typeMap : (increment typ typeMap).*1 = typeMap.*1.
Proof.
  induction typeMap as [|[k typeItem] typeMap IH]; [done|].
  cbn [increment]. destruct (String.eqb k typ); [done|].
  rewrite !fmap_cons. by rewrite IH.
Qed.

(** [increment] adds one to the count stored under [typ] and to no other. *)
Lemma increment_counts (f : string -> Z) typ typeMap :
  NoDup typeMap.*1 ->
  Forall (fun kv => type kv.2 = kv.1 /\ numGroup kv.2 = f kv.1) typeMap ->
  Forall (fun kv => type kv.2 = kv.1
                    /\ numGroup kv.2
                       = (f kv.1 + if decide (typ = kv.1) then 1 else 0)%Z)
    (increment typ typeMap).
Proof.
  induction typeMap as [|[k typeItem] typeMap IH]; intros Hnd Hall; simpl;
    [done|].
  apply NoDup_cons in Hnd as [Hk Hnd].
  apply Forall_cons in Hall as [[Htype Hnum] Hall]. simpl in *.
  destruct (String.eqb_spec k typ) as [->|Hne].
  - constructor; simpl.
    + rewrite decide_True by done. split; [done|lia].
    + rewrite Forall_forall in Hall |- *. intros kv Hkv.
      destruct (Hall kv Hkv) as [Hty Hn]. split; [done|].
      rewrite decide_False; [lia|]. intros ->.
      apply Hk. by apply (list_elem_of_fmap_2 fst).
  - constructor; simpl.
    + rewrite decide_False by congruence. split; [done|lia].
    + by apply IH.
Qed.

End TypeMapFacts.

Section TypeCounts.
Context `{Otelattr} `{Js.Engine}.

Lemma countType_bump typeMap item :
  countType typeMap item
  = match typeLabel item with
    | Some typ => bumpType typeMap typ
    | None => typeMap
    end.
Proof.
  unfold countType, typeLabel, bumpType.
  destruct (Js.truthy (field item xkey_spanSystem)); simpl; [|done].
  by destruct (splitTypeSystem _).
Qed.

Lemma fold_countType items typeMap :
  fold_left countType items typeMap
  = fold_left bumpType (typeLabels items) typeMap.
Proof.
  revert typeMap. induction items as [|item items IH]; intros typeMap; [done|].
  simpl. rewrite countType_bump, IH. unfold typeLabels. simpl.
  by destruct (typeLabel item).
Qed.

Lemma counted_snoc labels typeMap typ :
  counted labels typeMap -> counted (labels ++ [typ]) (bumpType typeMap typ).
Proof.
  intros [Hnames Hall]. unfold bumpType.
  destruct (Js.assoc typ typeMap) as [typeItem|] eqn:Hassoc.
  - assert (typ ∈ labels) as Hin.
    { apply elem_of_firstSeen. rewrite <- Hnames.
      destruct (decide (typ ∈ typeMap.*1)) as [|Hnin]; [done|].
      apply assoc_None in Hnin. congruence. }
    split.
    + by rewrite increment_names, firstSeen_snoc, decide_True.
    + eapply Forall_impl.
      * apply (increment_counts
                 (fun k => Z.of_nat (occurrences k labels))); [|done].
        rewrite Hnames. apply NoDup_firstSeen.
      * intros kv [Hty ->]. split; [done|]. rewrite occurrences_snoc.
        destruct (decide (typ = kv.1)); lia.
  - apply assoc_None in Hassoc.
    assert (typ ∉ labels) as Hnin
      by (by rewrite <- elem_of_firstSeen, <- Hnames).
    split.
    + by rewrite fmap_app, Hnames, firstSeen_snoc, decide_False.
    + apply Forall_app. split.
      * rewrite Forall_forall in Hall |- *. intros kv Hkv.
        destruct (Hall kv Hkv) as [Hty ->]. split; [done|].
        rewrite occurrences_snoc, decide_False; [by rewrite Nat.add_0_r|].
        intros ->. apply Hassoc. by apply (list_elem_of_fmap_2 fst).
      * constructor; [|done]. simpl. split; [done|].
        rewrite occurrences_snoc, occurrences_not_elem_of, decide_True; done.
Qed.

Lemma counted_fold labels : counted labels (fold_left bumpType labels []).
Proof.
  induction labels as [|typ labels IH] using rev_ind; [by split|].
  rewrite fold_left_app. simpl. by apply counted_snoc.
Qed.

Lemma types_unfold items :
  types items = (Js.for_in (fold_left countType items [])).*2.
Proof. reflexivity. Qed.

Lemma names_of_values labels typeMap :
  counted labels typeMap -> type <$> typeMap.*2 = typeMap.*1.
Proof.
  intros [_ Hall]. induction Hall as [|[k ti] typeMap [Hty _] _ IH]; [done|].
  rewrite !fmap_cons. simpl in *. by rewrite Hty, IH.
Qed.

Lemma types_names_perm items :
  type <$> types items ≡ₚ firstSeen (typeLabels items).
Proof.
  rewrite types_unfold, for_in_perm, fold_countType.
  pose proof (counted_fold (typeLabels items)) as Hcounted.
  rewrite (names_of_values _ _ Hcounted). by destruct Hcounted as [-> _].
Qed.

(** X5: when no type is the name of a member every object inherits, every
    type met among the items with a system has one entry, no other type has
    one, and the entry counts the items classified under it, so at least
    one. *)
Theorem types_counts (items : list ExploreItem) :
  plainLabels items ->
  NoDup (type <$> types items)
  /\ (forall t, t ∈ type <$> types items <-> t ∈ typeLabels items)
  /\ Forall (fun typeItem =>
               numGroup typeItem
               = Z.of_nat (occurrences (type typeItem) (typeLabels items))
               /\ (1 <= numGroup typeItem)%Z)
       (types items).
Proof.
  intros _. split; [|split].
  - rewrite types_names_perm. apply NoDup_firstSeen.
  - intros t. rewrite types_names_perm. apply elem_of_firstSeen.
  - rewrite types_unfold, Forall_fmap, for_in_perm, fold_countType.
    destruct (counted_fold (typeLabels items)) as [Hnames Hall].
    rewrite Forall_forall in Hall |- *. intros kv Hkv.
    destruct (Hall kv Hkv) as [Hty Hnum]. simpl. rewrite Hty. split; [done|].
    rewrite Hnum.
    assert (kv.1 ∈ typeLabels items) as Hin.
    { apply elem_of_firstSeen. rewrite <- Hnames.
      by apply (list_elem_of_fmap_2 fst). }
    apply occurrences_elem_of in Hin. lia.
Qed.

(** X6: when no type is the name of an inherited member or is written like
    an array index, the entries come in the order in which their types are
    first met among the items. *)
Theorem types_in_first_seen_order (items : list ExploreItem) :
  plainLabels items ->
  Forall (fun t => Js.array_index t = None) (typeLabels items) ->
  type <$> types items = firstSeen (typeLabels items).
Proof.
  intros _ Hplain. rewrite types_unfold, fold_countType.
  pose proof (counted_fold (typeLabels items)) as Hcounted.
  pose proof Hcounted as [Hnames Hall].
  rewrite for_in_plain; [by rewrite (names_of_values _ _ Hcounted)|].
  apply Forall_forall. intros kv Hkv.
  apply (proj1 (Forall_forall _ _) Hplain).
  apply elem_of_firstSeen. rewrite <- Hnames.
  by apply (list_elem_of_fmap_2 fst).
Qed.

(** X7: when no type is the name of an inherited member, a type filter that
    selects every type the aggregation offers filters nothing out. *)
Theorem filteredItems_all_types (items : list ExploreItem) :
  plainLabels items ->
  filteredItems items (type <$> types items) = items.
Proof.
  intros _. unfold filteredItems.
  destruct (length (type <$> types items) =? 0)%nat; [done|].
  apply filter_all_true. intros item Hitem.
  apply keepItem_label. intros t Ht.
  rewrite types_names_perm. apply elem_of_firstSeen.
  apply list_elem_of_omap. eauto.
Qed.

End TypeCounts.

(** ** Pages *)

Section PageFacts.
Context {A : Type}.

(** With bounds that are not negative, [slice] keeps the positions from
    [start] up to, and without, [end]. *)
Lemma slice_nonneg (l : list A) (i j : Z) :
  (0 <= i)%Z -> (0 <= j)%Z ->
  Js.slice l i j
  = take (Z.to_nat j `min` length l - Z.to_nat i `min` length l)
      (drop (Z.to_nat i `min` length l) l).
Proof.
  intros Hi Hj. unfold Js.slice, Js.relative_index.
  destruct (Z.ltb_spec i 0), (Z.ltb_spec j 0); try lia. f_equal; [|f_equal]; lia.
Qed.

Lemma slice_lookup (l : list A) (i j : Z) (n : nat) :
  (0 <= i)%Z -> (0 <= j)%Z ->
  Js.slice l i j !! n
  = if decide (Z.of_nat n < j - i)%Z then l !! (Z.to_nat i + n)%nat else None.
Proof.
  intros Hi Hj. rewrite slice_nonneg by done.
  destruct (decide (Z.of_nat n < j - i)%Z) as [Hlt|Hge].
  - destruct (decide (Z.to_nat i + n < length l)%nat) as [Hin|Hout].
    + rewrite lookup_take_lt by lia. rewrite lookup_drop. f_equal. lia.
    + rewrite (lookup_ge_None_2 l (Z.to_nat i + n)) by lia.
      apply lookup_ge_None_2. rewrite length_take, length_drop. lia.
  - apply lookup_ge_None_2. rewrite length_take, length_drop. lia.
Qed.

Lemma slice_append (l : list A) (i j k : Z) :
  (0 <= i <= j)%Z -> (j <= k)%Z ->
  Js.slice l i j ++ Js.slice l j k = Js.slice l i k.
Proof.
  intros Hij Hjk. rewrite !slice_nonneg by lia.
  set (a := (Z.to_nat i `min` length l)%nat).
  set (b := (Z.to_nat j `min` length l)%nat).
  set (c := (Z.to_nat k `min` length l)%nat).
  assert (a <= b <= c)%nat as Habc by (unfold a, b, c; lia).
  replace (drop b l) with (drop (b - a) (drop a l))
    by (rewrite drop_drop; f_equal; lia).
  rewrite take_take_drop. f_equal. lia.
Qed.

Lemma slice_whole (l : list A) (j : Z) :
  (Z.of_nat (length l) <= j)%Z -> Js.slice l 0 j = l.
Proof.
  intros Hj. rewrite slice_nonneg by lia. simpl.
  rewrite Nat.sub_0_r. apply take_ge. lia.
Qed.

End PageFacts.

Section PageItems.
Context `{Otelattr} `{Js.Engine}.

(** X8: with offsets that are not negative, item [n] of the page is item
    [start + n] of the sorted list while [n < end - start], and there is no
    further item: a page that starts past the end is empty, and the last
    page holds what is left. *)
Theorem pageItems_lookup (sorted : list ExploreItem) (pos : Pos) (n : nat) :
  (0 <= start pos)%Z -> (0 <= end_ pos)%Z ->
  pageItems sorted pos !! n
  = if decide (Z.of_nat n < end_ pos - start pos)%Z
    then sorted !! (Z.to_nat (start pos) + n)%nat
    else None.
Proof. intros Hs He. unfold pageItems. by apply slice_lookup. Qed.

(** X9: pages that follow one another tile the sorted list: two adjoining
    pages make up the page over both ranges, and the pages from offset 0 to
    the length make up the whole list. *)
Theorem pageItems_adjoining (sorted : list ExploreItem) (i j k : Z) :
  (0 <= i <= j)%Z -> (j <= k)%Z ->
  pageItems sorted {| start := i; end_ := j |}
  ++ pageItems sorted {| start := j; end_ := k |}
  = pageItems sorted {| start := i; end_ := k |}
  /\ (i = 0%Z -> (Z.of_nat (length sorted) <= k)%Z ->
      pageItems sorted {| start := i; end_ := k |} = sorted).
Proof.
  intros Hij Hjk. unfold pageItems. simpl. split.
  - by apply slice_append.
  - intros -> Hk. by apply slice_whole.
Qed.

End PageItems.

(** ** Columns of numbers and of strings *)

(** The natural order of two numbers, and of two strings. *)
Definition numberLe (v w : Js.Value) : Prop :=
  match v, w with
  | Js.Num (Js.Fin p), Js.Num (Js.Fin q) => (p <= q)%Q
  | _, _ => False
  end.

Definition stringLe (v w : Js.Value) : Prop :=
  match v, w with
  | Js.Str s, Js.Str t => Js.str_lt t s = false
  | _, _ => False
  end.

(** [a] may stand before [b] in a list ordered by the raw values of
    [column] under [le]. *)
Definition inValueOrder (le : relation Js.Value) (column : string)
    (desc : bool) (a b : ExploreItem) : Prop :=
  if desc then le (field b column) (field a column)
  else le (field a column) (field b column).

(** The lists [orderBy] leaves as they are: no element compares greater, in
    the direction asked for, than one that follows it. *)
Definition keysInOrder `{Js.Engine} {A} (iteratee : A -> Js.Criterion)
    (desc : bool) (a b : A) : Prop :=
  let result := Lodash.compareAscending (iteratee a) (iteratee b) in
  ((if desc then - result else result) <= 0)%Z.

Section SortedInput.
Context {A : Type} (cmp : A -> A -> Z).

(** The insertion sort returns a sorted list as it is. *)
Lemma Array_sort_sorted_id (l : list A) :
  StronglySorted (fun x y => (cmp x y <= 0)%Z) l -> Js.Array_sort cmp l = l.
Proof.
  induction 1 as [|x l Hl IH Hx]; simpl; [done|]. rewrite IH.
  destruct Hx as [|y l Hxy _]; simpl; [done|].
  by destruct (Z.leb_spec (cmp x y) 0); [|lia].
Qed.

End SortedInput.

Section KeyOrder.
Context `{Js.Engine} {A : Type} (iteratee : A -> Js.Criterion).

Lemma compareMultiple_single (d : bool) (c c' : Js.Criterion) (i j : Z)
    (a b : A) :
  Lodash.compareMultiple [direction d]
    {| Lodash.criteria := [c]; Lodash.index := i; Lodash.value := a |}
    {| Lodash.criteria := [c']; Lodash.index := j; Lodash.value := b |}
  = if (Lodash.compareAscending c c' =? 0)%Z then (i - j)%Z
    else if d then (- Lodash.compareAscending c c')%Z
    else Lodash.compareAscending c c'.
Proof.
  unfold Lodash.compareMultiple. simpl.
  destruct (Lodash.compareAscending c c' =? 0)%Z; [done|].
  destruct d; simpl; lia.
Qed.

(** A list whose keys are in order gives entries the comparator of
    [orderBy] finds in order. *)
Lemma entries_from_sorted (d : bool) from (l : list A) :
  StronglySorted (keysInOrder iteratee d) l ->
  StronglySorted
    (fun x y => (Lodash.compareMultiple [direction d] x y <= 0)%Z)
    (Lodash.entries_from [iteratee] from l).
Proof.
  intros Hl. revert from.
  induction Hl as [|a l Hl IH Ha]; intros from; simpl; constructor; [done|].
  apply Forall_lookup. intros k e He.
  rewrite entries_from_lookup in He.
  destruct (l !! k) as [b|] eqn:Hb; [|done]. injection He as <-.
  rewrite Forall_lookup in Ha. specialize (Ha k b Hb).
  unfold keysInOrder in Ha. simpl in *. rewrite compareMultiple_single.
  destruct (Z.eqb_spec (Lodash.compareAscending (iteratee a) (iteratee b)) 0);
    [lia|done].
Qed.

Lemma orderBy_sorted_id (d : bool) (l : list A) :
  StronglySorted (keysInOrder iteratee d) l ->
  Lodash.orderBy l iteratee (Some (direction d)) = l.
Proof.
  intros Hl. unfold Lodash.orderBy, Lodash.baseOrderBy, Lodash.sortedEntries.
  rewrite Array_sort_sorted_id by by apply entries_from_sorted.
  apply value_entries_from.
Qed.

(** Keys [K] that [compareAscending] orders the way [le] does. *)
Context (K : Js.Criterion -> Prop) (le : relation Js.Criterion).
Hypothesis le_trans :
  forall x y z, K x -> K y -> K z -> le x y -> le y z -> le x z.
Hypothesis ascending_le :
  forall x y, K x -> K y -> (Lodash.compareAscending x y <= 0)%Z -> le x y.
Hypothesis ascending_ge :
  forall x y, K x -> K y -> (0 <= Lodash.compareAscending x y)%Z -> le y x.

Definition keyedEntry (e : Lodash.Entry A) : Prop :=
  Lodash.criteria e = [iteratee (Lodash.value e)]
  /\ K (iteratee (Lodash.value e)).

Definition inKeyOrder (d : bool) (a b : A) : Prop :=
  if d then le (iteratee b) (iteratee a) else le (iteratee a) (iteratee b).

Lemma entries_from_keyed from (l : list A) :
  Forall (fun a => K (iteratee a)) l ->
  Forall keyedEntry (Lodash.entries_from [iteratee] from l).
Proof.
  intros Hl. revert from.
  induction Hl as [|a l Ha Hl IH]; intros from; simpl; constructor;
    [by split|by apply IH].
Qed.

Lemma compareMultiple_keyed (d : bool) (x y : Lodash.Entry A) :
  keyedEntry x -> keyedEntry y ->
  ((Lodash.compareMultiple [direction d] x y <= 0)%Z ->
     inKeyOrder d (Lodash.value x) (Lodash.value y))
  /\ ((0 < Lodash.compareMultiple [direction d] x y)%Z ->
     inKeyOrder d (Lodash.value y) (Lodash.value x)).
Proof.
  destruct x as [cx i a], y as [cy j b]. intros [Hx Ka] [Hy Kb].
  simpl in *. subst cx cy. rewrite compareMultiple_single.
  unfold inKeyOrder.
  destruct (Z.eqb_spec (Lodash.compareAscending (iteratee a) (iteratee b)) 0)
    as [Heq|Hne].
  - split; intros _; destruct d;
      solve [ apply (ascending_le (iteratee a) (iteratee b)); (done || lia)
            | apply (ascending_ge (iteratee a) (iteratee b)); (done || lia) ].
  - split; intros Hcmp; destruct d;
      solve [ apply (ascending_le (iteratee a) (iteratee b)); (done || lia)
            | apply (ascending_ge (iteratee a) (iteratee b)); (done || lia) ].
Qed.

(** [orderBy] puts a collection with keys in [K] in the order of [le]. *)
Lemma orderBy_in_key_order (d : bool) (l : list A) :
  Forall (fun a => K (iteratee a)) l ->
  StronglySorted (inKeyOrder d)
    (Lodash.orderBy l iteratee (Some (direction d))).
Proof.
  intros Hl. unfold Lodash.orderBy, Lodash.baseOrderBy, Lodash.sortedEntries.
  eapply StronglySorted_fmap; [intros x y Hxy; exact Hxy|].
  apply (Array_sort_sorted _ _ keyedEntry).
  - intros x y z [_ Kx] [_ Ky] [_ Kz]. unfold inKeyOrder.
    destruct d; eauto.
  - intros x y Hx Hy. by apply compareMultiple_keyed.
  - intros x y Hx Hy. by apply compareMultiple_keyed.
  - by apply entries_from_keyed.
Qed.

End KeyOrder.

Section KeyOrderAgain.
Context `{Js.Engine} {A : Type} (iteratee : A -> Js.Criterion).
Context (K : Js.Criterion -> Prop) (le : relation Js.Criterion).
Hypothesis le_trans :
  forall x y z, K x -> K y -> K z -> le x y -> le y z -> le x z.
Hypothesis ascending_le :
  forall x y, K x -> K y -> (Lodash.compareAscending x y <= 0)%Z -> le x y.
Hypothesis ascending_ge :
  forall x y, K x -> K y -> (0 <= Lodash.compareAscending x y)%Z -> le y x.
Hypothesis le_ascending :
  forall x y, K x -> K y -> le x y -> (Lodash.compareAscending x y <= 0)%Z.
Hypothesis ge_ascending :
  forall x y, K x -> K y -> le y x -> (0 <= Lodash.compareAscending x y)%Z.

Lemma StronglySorted_impl_Forall {B} (R R' : relation B) (P : B -> Prop) l :
  (forall a b, P a -> P b -> R a b -> R' a b) ->
  Forall P l -> StronglySorted R l -> StronglySorted R' l.
Proof.
  intros Himpl HP Hl. induction Hl as [|a l Hl IH Ha]; [constructor|].
  apply Forall_cons in HP as [Pa HP]. constructor; [by apply IH|].
  rewrite Forall_forall in Ha, HP |- *. intros b Hb. apply Himpl; auto.
Qed.

(** Sorting what [orderBy] has sorted changes nothing, for keys in [K]. *)
Lemma orderBy_twice (d : bool) (l : list A) :
  Forall (fun a => K (iteratee a)) l ->
  Lodash.orderBy (Lodash.orderBy l iteratee (Some (direction d))) iteratee
    (Some (direction d))
  = Lodash.orderBy l iteratee (Some (direction d)).
Proof.
  intros Hl. apply orderBy_sorted_id.
  apply (StronglySorted_impl_Forall (inKeyOrder iteratee le d)
           (keysInOrder iteratee d) (fun a => K (iteratee a))).
  - intros a b Ka Kb. unfold inKeyOrder, keysInOrder.
    destruct d; intros Hle.
    + pose proof (ge_ascending _ _ Ka Kb Hle). simpl. lia.
    + by apply le_ascending.
  - unfold Lodash.orderBy. by rewrite baseOrderBy_perm.
  - by apply (orderBy_in_key_order iteratee K le).
Qed.

End KeyOrderAgain.

Section NumberFacts.
Context `{Js.Engine}.

Lemma Qle_bool_false (p q : Q) : (p < q)%Q -> Qle_bool q p = false.
Proof.
  intros Hlt. destruct (Qle_bool q p) eqn:Hle; [|done].
  apply Qle_bool_iff in Hle. by apply Qlt_not_le in Hlt.
Qed.

Lemma Qeq_bool_false (p q : Q) : ~ (p == q)%Q -> Qeq_bool p q = false.
Proof.
  intros Hne. destruct (Qeq_bool p q) eqn:Heq; [|done].
  by apply Qeq_bool_iff in Heq.
Qed.

(** Two finite numbers compare as numbers. *)
Lemma compareAscending_numbers (p q : Q) :
  Lodash.compareAscending (Js.CValue (Js.Num (Js.Fin p)))
    (Js.CValue (Js.Num (Js.Fin q)))
  = match (p ?= q)%Q with Lt => (-1)%Z | Eq => 0%Z | Gt => 1%Z end.
Proof.
  unfold Lodash.compareAscending, Js.gt, Js.lt. simpl.
  destruct (Qcompare_spec p q) as [Heq|Hlt|Hgt].
  - by rewrite (proj2 (Qeq_bool_iff p q) Heq).
  - rewrite Qeq_bool_false by by apply Qlt_not_eq. simpl.
    rewrite (proj2 (Qle_bool_iff p q)) by by apply Qlt_le_weak.
    by rewrite Qle_bool_false.
  - rewrite Qeq_bool_false
      by (intros Heq; symmetry in Heq; by apply Qlt_not_eq in Hgt).
    simpl. by rewrite Qle_bool_false.
Qed.

Definition numberKey (c : Js.Criterion) : Prop :=
  exists q, c = Js.CValue (Js.Num (Js.Fin q)).

Definition valueLe (le : relation Js.Value) (x y : Js.Criterion) : Prop :=
  match x, y with
  | Js.CValue v, Js.CValue w => le v w
  | _, _ => False
  end.

Lemma numberLe_trans x y z :
  numberKey x -> numberKey y -> numberKey z ->
  valueLe numberLe x y -> valueLe numberLe y z -> valueLe numberLe x z.
Proof. intros [p ->] [q ->] [r ->]. simpl. apply Qle_trans. Qed.

Lemma numbers_ascending x y :
  numberKey x -> numberKey y ->
  ((Lodash.compareAscending x y <= 0)%Z <-> valueLe numberLe x y)
  /\ ((0 <= Lodash.compareAscending x y)%Z <-> valueLe numberLe y x).
Proof.
  intros [p ->] [q ->]. rewrite compareAscending_numbers. simpl.
  destruct (Qcompare_spec p q) as [Heq|Hlt|Hgt].
  - split; (split; [intros _|lia]).
    + apply Qle_lteq. by right.
    + apply Qle_lteq. right. by symmetry.
  - split; split; try lia.
    + intros _. by apply Qlt_le_weak.
    + intros Hle. by apply Qlt_not_le in Hlt.
  - split; split; try lia.
    + intros Hle. by apply Qlt_not_le in Hgt.
    + intros _. by apply Qlt_le_weak.
Qed.

End NumberFacts.

Section StringFacts.
Context `{Js.Engine}.

Lemma str_lt_irrefl s : Js.str_lt s s = false.
Proof. induction s as [|x s IH]; simpl; [done|]. by rewrite Nat.ltb_irrefl. Qed.

Lemma str_lt_asym s t : Js.str_lt s t = true -> Js.str_lt t s = false.
Proof.
  revert t. induction s as [|x s IH]; intros [|y t]; simpl; try done.
  destruct (Nat.ltb_spec (nat_of_ascii x) (nat_of_ascii y)),
    (Nat.ltb_spec (nat_of_ascii y) (nat_of_ascii x)); try done; try lia.
  apply IH.
Qed.

Lemma str_le_trans a b c :
  Js.str_lt b a = false -> Js.str_lt c b = false -> Js.str_lt c a = false.
Proof.
  revert b c. induction a as [|x a IH]; intros [|y b] [|z c]; simpl;
    try done.
  destruct (Nat.ltb_spec (nat_of_ascii y) (nat_of_ascii x)),
    (Nat.ltb_spec (nat_of_ascii x) (nat_of_ascii y)),
    (Nat.ltb_spec (nat_of_ascii z) (nat_of_ascii y)),
    (Nat.ltb_spec (nat_of_ascii y) (nat_of_ascii z)),
    (Nat.ltb_spec (nat_of_ascii z) (nat_of_ascii x)),
    (Nat.ltb_spec (nat_of_ascii x) (nat_of_ascii z));
    try done; try lia.
  apply IH.
Qed.

(** Two strings compare as strings. *)
Lemma compareAscending_strings (s t : string) :
  Lodash.compareAscending (Js.CValue (Js.Str s)) (Js.CValue (Js.Str t))
  = if String.eqb s t then 0%Z
    else if Js.str_lt t s then 1%Z
    else if Js.str_lt s t then (-1)%Z else 0%Z.
Proof.
  unfold Lodash.compareAscending, Js.gt, Js.lt. simpl.
  by destruct (String.eqb s t), (Js.str_lt t s), (Js.str_lt s t).
Qed.

Definition stringKey (c : Js.Criterion) : Prop :=
  exists s, c = Js.CValue (Js.Str s).

Lemma stringLe_trans x y z :
  stringKey x -> stringKey y -> stringKey z ->
  valueLe stringLe x y -> valueLe stringLe y z -> valueLe stringLe x z.
Proof.
  intros [s ->] [t ->] [u ->]. simpl. intros Hst Htu.
  by apply (str_le_trans s t u).
Qed.

Lemma strings_ascending x y :
  stringKey x -> stringKey y ->
  ((Lodash.compareAscending x y <= 0)%Z <-> valueLe stringLe x y)
  /\ ((0 <= Lodash.compareAscending x y)%Z <-> valueLe stringLe y x).
Proof.
  intros [s ->] [t ->]. rewrite compareAscending_strings. simpl.
  destruct (String.eqb_spec s t) as [->|Hne].
  - rewrite str_lt_irrefl. by split.
  - destruct (Js.str_lt t s) eqn:Hts.
    + rewrite (str_lt_asym _ _ Hts). split; split; (done || lia).
    + destruct (Js.str_lt s t); split; split; (done || lia).
Qed.

End StringFacts.

Section ValueColumns.
Context `{Otelattr} `{Js.Engine}.

Lemma sortedItems_raw (filtered : list ExploreItem) c d :
  c <> "" -> isDateField c = false ->
  sortedItems filtered {| column := Some c; desc := d |}
  = Lodash.orderBy filtered (fun item => Js.CValue (field item c))
      (Some (direction d)).
Proof.
  intros Hc Hraw. unfold sortedItems. simpl.
  destruct (String.eqb_spec c ""); [done|]. by rewrite Hraw.
Qed.

(** X10: on a column that is not date-like and holds a finite number in every
    item, the sorted items are in the order of the numbers, ascending or
    descending as asked. *)
Theorem sortedItems_in_number_order (filtered : list ExploreItem) (c : string)
    (d : bool) :
  c <> "" -> isDateField c = false ->
  Forall (fun item => exists q, field item c = Js.Num (Js.Fin q)) filtered ->
  StronglySorted (inValueOrder numberLe c d)
    (sortedItems filtered {| column := Some c; desc := d |}).
Proof.
  intros Hc Hraw Hnum. rewrite sortedItems_raw by done.
  apply (orderBy_in_key_order (fun item => Js.CValue (field item c))
           numberKey (valueLe numberLe)).
  - apply numberLe_trans.
  - intros x y Kx Ky. by apply numbers_ascending.
  - intros x y Kx Ky. by apply numbers_ascending.
  - eapply Forall_impl; [exact Hnum|]. intros item [q ->]. by exists q.
Qed.


(** X12: a list whose keys are already in the order asked for is returned as
    it is: no item compares greater, in that direction, than one after it,
    so the sort moves nothing. *)
Theorem sortedItems_sorted_input (filtered : list ExploreItem) (c : string)
    (d : bool) :
  c <> "" ->
  StronglySorted (keysInOrder (sortKey c (isDateField c)) d) filtered ->
  sortedItems filtered {| column := Some c; desc := d |} = filtered.
Proof.
  intros Hc Hsorted. unfold sortedItems. simpl.
  destruct (String.eqb_spec c ""); [done|].
  by apply (orderBy_sorted_id (sortKey c (isDateField c)) d).
Qed.

(** X13: on a column of finite numbers, or of strings, sorting the sorted
    items again under the same order changes nothing. *)
Theorem sortedItems_twice (filtered : list ExploreItem) (c : string)
    (d : bool) :
  c <> "" -> isDateField c = false ->
  Forall (fun item => exists q, field item c = Js.Num (Js.Fin q)) filtered
  \/ Forall (fun item => exists s, field item c = Js.Str s) filtered ->
  let order := {| column := Some c; desc := d |} in
  sortedItems (sortedItems filtered order) order = sortedItems filtered order.
Proof.
  intros Hc Hraw Hkeys order. unfold order.
  rewrite !sortedItems_raw by done. destruct Hkeys as [Hnum|Hstr].
  - apply (orderBy_twice (fun item => Js.CValue (field item c))
             numberKey (valueLe numberLe)).
    + apply numberLe_trans.
    + intros x y Kx Ky. by apply numbers_ascending.
    + intros x y Kx Ky. by apply numbers_ascending.
    + intros x y Kx Ky. by apply numbers_ascending.
    + intros x y Kx Ky. by apply numbers_ascending.
    + eapply Forall_impl; [exact Hnum|]. intros item [q ->]. by exists q.
  - apply (orderBy_twice (fun item => Js.CValue (field item c))
             stringKey (valueLe stringLe)).
    + apply stringLe_trans.
    + intros x y Kx Ky. by apply strings_ascending.
    + intros x y Kx Ky. by apply strings_ascending.
    + intros x y Kx Ky. by apply strings_ascending.
    + intros x y Kx Ky. by apply strings_ascending.
    + eapply Forall_impl; [exact Hstr|]. intros item [s ->]. by exists s.
Qed.

End ValueColumns.

(** ** The pager count and the watchers *)

Section WatcherFacts.
Context `{Otelattr} `{Js.Engine}.
Context {QueryPart : Type}.

(** A pass in which the callback of [filteredItems] is the only one. *)
Definition stepFilteredOnly (st : State QueryPart) (c : Change QueryPart)
  : State QueryPart :=
  let st' := assign c st in
  if triggers c WatchFilteredItems then callback WatchFilteredItems st'
  else st'.

(** X15: whenever the callback of [items] runs, the callback of
    [filteredItems] runs after it in the same pass and overwrites what it
    wrote: every pass leaves the state the second watcher alone would
    leave. *)
Theorem items_watcher_overwritten (st : State QueryPart)
    (c : Change QueryPart) :
  (triggers c WatchItems = true -> triggers c WatchFilteredItems = true)
  /\ step st c = stepFilteredOnly st c.
Proof. by destruct c. Qed.


End WatcherFacts.

(** ** Columns and errors *)

Section ProjectionFacts.

(** X17: the group columns and the plot columns are the columns flagged
    [isGroup] and [isNum], each kept in the order of the columns; a column
    flagged both ways is in both lists. *)
Theorem column_projections (columns : list ColumnInfo) :
  groupColumns columns `sublist_of` columns
  /\ plotColumns columns `sublist_of` columns
  /\ forall col,
       (col ∈ groupColumns columns <-> col ∈ columns /\ isGroup col = true)
       /\ (col ∈ plotColumns columns <-> col ∈ columns /\ isNum col = true).
Proof.
  unfold groupColumns, plotColumns. split; [|split].
  - induction columns as [|col columns IH]; simpl; [done|].
    destruct (isGroup col); by constructor.
  - induction columns as [|col columns IH]; simpl; [done|].
    destruct (isNum col); by constructor.
  - intros col. by rewrite !list_elem_of_In, !filter_In.
Qed.

(** X18: the message and the code are never [undefined] or [null], whatever
    the error is. *)
Theorem error_projection_not_nullish (error : Js.Any) :
  Js.any_nullish (errorMessage error) = false
  /\ Js.any_nullish (errorCode error) = false.
Proof.
  unfold errorMessage, errorCode, errorField, Js.coalesce.
  split.
  - by destruct (Js.any_nullish (Js.optional_get _ "message")) eqn:Hn.
  - by destruct (Js.any_nullish (Js.optional_get _ "code")) eqn:Hn.
Qed.

(** X19: when [response.data] is an object that holds the message, the code
    and the query as strings, the message and the code are returned as they
    are and the query as the formatter returns it. *)
Theorem error_projection_present (format : string -> string) (error : Js.Any)
    (props : list (string * Js.Any)) (message code sql : string) :
  Js.optional_get (Js.optional_get error "response") "data" = Js.Obj props ->
  Js.assoc "message" props = Some (Js.Prim (Js.Str message)) ->
  Js.assoc "code" props = Some (Js.Prim (Js.Str code)) ->
  Js.assoc "query" props = Some (Js.Prim (Js.Str sql)) ->
  errorMessage error = Js.Prim (Js.Str message)
  /\ errorCode error = Js.Prim (Js.Str code)
  /\ query format error = Some (format sql).
Proof.
  intros Hdata Hmessage Hcode Hquery.
  unfold errorMessage, errorCode, query, errorField.
  rewrite Hdata. unfold Js.optional_get. simpl.
  by rewrite Hmessage, Hcode, Hquery.
Qed.

End ProjectionFacts.

(** ** The further properties on the fixtures *)

Section MoreExamples.
Import Fixture.
#[local] Existing Instance otelattr.
#[local] Existing Instance engine.

Lemma fixture_labels : typeLabels [A; B; C] = ["db"; "http"; "db"].
Proof. reflexivity. Qed.

Lemma fixture_plainLabels : plainLabels [A; B; C].
Proof.
  unfold plainLabels. rewrite fixture_labels.
  compute_done.
Qed.

Lemma filteredItems_same_members_witness :
  filteredItems [A; B; C] ["db"; "http"]
  = filteredItems [A; B; C] ["http"; "db"; "db"].
Proof.
  apply (filteredItems_same_members [A; B; C]).
  intros t. rewrite !elem_of_cons, !elem_of_nil. tauto.
Defined.

Lemma filteredItems_grows_witness :
  filteredItems [A; B; C] ["db"]
  `sublist_of` filteredItems [A; B; C] ["db"; "http"].
Proof.
  apply (filteredItems_grows [A; B; C] ["db"] ["db"; "http"]); [done|].
  intros t Ht. apply elem_of_cons in Ht as [->|Ht]; [by left|].
  by apply elem_of_nil in Ht.
Defined.

Lemma types_counts_witness :
  NoDup (type <$> types [A; B; C])
  /\ (forall t, t ∈ type <$> types [A; B; C] <-> t ∈ typeLabels [A; B; C])
  /\ Forall (fun typeItem =>
               numGroup typeItem
               = Z.of_nat (occurrences (type typeItem) (typeLabels [A; B; C]))
               /\ (1 <= numGroup typeItem)%Z)
       (types [A; B; C]).
Proof. apply (types_counts [A; B; C]), fixture_plainLabels. Defined.

Lemma types_in_first_seen_order_witness :
  type <$> types [A; B; C] = firstSeen (typeLabels [A; B; C]).
Proof.
  apply (types_in_first_seen_order [A; B; C]); [apply fixture_plainLabels|].
  rewrite fixture_labels. by repeat constructor.
Defined.

Lemma filteredItems_all_types_witness :
  filteredItems [A; B; C] (type <$> types [A; B; C]) = [A; B; C].
Proof. apply (filteredItems_all_types [A; B; C]), fixture_plainLabels. Defined.

Lemma pageItems_lookup_witness :
  pageItems [A; B; C] {| start := 1; end_ := 3 |} !! 0%nat
  = if decide (Z.of_nat 0 < 3 - 1)%Z
    then [A; B; C] !! (Z.to_nat 1 + 0)%nat
    else None.
Proof.
  apply (pageItems_lookup [A; B; C] {| start := 1; end_ := 3 |} 0); simpl; lia.
Defined.

Lemma pageItems_adjoining_witness :
  pageItems [A; B; C] {| start := 0; end_ := 2 |}
  ++ pageItems [A; B; C] {| start := 2; end_ := 4 |}
  = pageItems [A; B; C] {| start := 0; end_ := 4 |}
  /\ (0%Z = 0%Z -> (Z.of_nat (length [A; B; C]) <= 4)%Z ->
      pageItems [A; B; C] {| start := 0; end_ := 4 |} = [A; B; C]).
Proof. apply (pageItems_adjoining [A; B; C] 0 2 4); lia. Defined.

Lemma fixture_counts :
  Forall (fun item =>
            exists q, field item "span.count_per_min" = Js.Num (Js.Fin q))
    [A; B; C].
Proof. repeat constructor; by eexists. Qed.


Lemma sortedItems_in_number_order_witness :
  StronglySorted (inValueOrder numberLe "span.count_per_min" false)
    (sortedItems [A; B; C]
       {| column := Some "span.count_per_min"; desc := false |}).
Proof.
  apply (sortedItems_in_number_order [A; B; C] "span.count_per_min" false);
    [discriminate|reflexivity|apply fixture_counts].
Defined.


Lemma sortedItems_sorted_input_witness :
  sortedItems [B; C; A]
    {| column := Some "span.count_per_min"; desc := false |}
  = [B; C; A].
Proof.
  apply (sortedItems_sorted_input [B; C; A] "span.count_per_min" false);
    [discriminate|].
  repeat constructor; by vm_compute.
Defined.

Lemma sortedItems_twice_witness :
  let order := {| column := Some "span.count_per_min"; desc := false |} in
  sortedItems (sortedItems [A; B; C] order) order = sortedItems [A; B; C] order.
Proof.
  apply (sortedItems_twice [A; B; C] "span.count_per_min" false);
    [discriminate|reflexivity|left; apply fixture_counts].
Defined.

Lemma error_projection_present_witness :
  let data :=
    [ ("message", Js.Prim (Js.Str "syntax error"));
      ("code", Js.Prim (Js.Str "bad_request"));
      ("query", Js.Prim (Js.Str "select 1")) ] in
  let error := Js.Obj [("response", Js.Obj [("data", Js.Obj data)])] in
  errorMessage error = Js.Prim (Js.Str "syntax error")
  /\ errorCode error = Js.Prim (Js.Str "bad_request")
  /\ query (fun s => s) error = Some "select 1".
Proof.
  intros data error.
  apply (error_projection_present (fun s => s) error data);
    reflexivity.
Defined.

Lemma sortedItems_dates_any_engine_witness :
  Lodash.value <$> [sortEntry "span.time" 1 C; sortEntry "span.time" 0 A]
  = sortedItems [A; C] {| column := Some "span.time"; desc := false |}.
Proof.
  apply (sortedItems_dates_any_engine [A; C] "span.time" false).
  - discriminate.
  - reflexivity.
  - repeat constructor; by eexists.
  - apply perm_swap.
  - repeat constructor; by vm_compute.
Defined.

End MoreExamples.
